(** * Semantic video search: the retrieval-and-aggregation core

    A shallow embedding of the pure part of [inference.py]:
    the threshold re-check at the end of [search_similar_segments],
    [group_results_by_video], [format_duration] and [format_number],
    together with the two places of the renderers that read a group
    ([segments[0]] and [video_info.get("transcription_language")]).

    Python values are typed as follows.
    - A number (an [int] or a finite [float]) is the rational it denotes;
      comparisons of such numbers in Python are exact, so [Q] with its order
      is their semantics.  NaN is left out: the re-check rejects it
      ([nan >= t] is false), so no accepted match carries it.
    - [None], strings and datetimes are separate constructors; comparing
      values of different kinds raises [TypeError].
    - A [dict] is an association list in insertion order with distinct keys.
    - A function that may raise returns a [res]. *)

From Stdlib Require Import ZArith QArith List String Ascii Bool Lia Lqa.
From Stdlib Require Import Permutation Sorted.
From Stdlib Require Import Decimal DecimalString DecimalPos DecimalZ.
Import ListNotations.
Open Scope string_scope.
Open Scope list_scope.
Open Scope Z_scope.

(** ** Python values and exceptions *)

Module Py.

Inductive exn : Type :=
| TypeError
| KeyError
| IndexError
| OverflowError.

Inductive res (A : Type) : Type :=
| Ok (a : A)
| Raise (e : exn).
Arguments Ok {A} a.
Arguments Raise {A} e.

Definition bind {A B : Type} (c : res A) (k : A -> res B) : res B :=
  match c with
  | Ok a => k a
  | Raise e => Raise e
  end.

Inductive value : Type :=
| VNone
| VNum (q : Q)
| VStr (s : string)
| VDatetime (t : Z).

(** [bool(v)]: [None], zero and the empty string are falsy. *)
Definition truthy (v : value) : bool :=
  match v with
  | VNone => false
  | VNum q => negb (Qeq_bool q 0)
  | VStr s => negb (String.eqb s "")
  | VDatetime _ => true
  end.

(** [a or b] *)
Definition or_ (a b : value) : value := if truthy a then a else b.

(** [a < b] *)
Definition lt (a b : value) : res bool :=
  match a, b with
  | VNum x, VNum y => Ok (negb (Qle_bool y x))
  | VStr s, VStr t => Ok (String.ltb s t)
  | VDatetime s, VDatetime t => Ok (s <? t)
  | _, _ => Raise TypeError
  end.

(** [a >= b] *)
Definition ge (a b : value) : res bool :=
  match a, b with
  | VNum x, VNum y => Ok (Qle_bool y x)
  | VStr s, VStr t => Ok (String.leb t s)
  | VDatetime s, VDatetime t => Ok (t <=? s)
  | _, _ => Raise TypeError
  end.

(** [l[0]] *)
Definition getitem0 {A : Type} (l : list A) : res A :=
  match l with
  | x :: _ => Ok x
  | [] => Raise IndexError
  end.

End Py.

Import Py.

Notation "x <- c ;; k" := (Py.bind c (fun x => k))
  (at level 61, c at next level, right associativity).

(** ** Dictionaries with string keys, in insertion order *)

Section Dict.
Context {V : Type}.

Definition dict : Type := list (string * V).

(** [d.get(k)], with [None] for a missing key left to the caller *)
Fixpoint dict_lookup (k : string) (d : dict) : option V :=
  match d with
  | [] => None
  | (k', v) :: d' => if String.eqb k k' then Some v else dict_lookup k d'
  end.

(** [k in d] *)
Definition dict_contains (k : string) (d : dict) : bool :=
  match dict_lookup k d with
  | Some _ => true
  | None => false
  end.

(** [d[k]] *)
Definition dict_getitem (k : string) (d : dict) : res V :=
  match dict_lookup k d with
  | Some v => Ok v
  | None => Raise KeyError
  end.

(** [d[k] = v]: a present key keeps its position, a new key goes last *)
Fixpoint dict_setitem (k : string) (v : V) (d : dict) : dict :=
  match d with
  | [] => [(k, v)]
  | (k', v') :: d' =>
      if String.eqb k k' then (k, v) :: d' else (k', v') :: dict_setitem k v d'
  end.

(** [dict(items)] *)
Definition dict_of_items (items : list (string * V)) : dict :=
  fold_left (fun d kv => dict_setitem (fst kv) (snd kv) d) items [].

Definition dict_keys (d : dict) : list string := map fst d.
End Dict.
Arguments dict V : clear implicits.

(** ** The data model *)

(** One row of the query of [search_similar_segments], as the dictionary
    [dict(zip(columns, row))]: the fourteen columns are always present. *)
Record row : Type := mk_row {
  video_id : string;
  title : value;
  description : value;
  published_at : value;
  duration : value;
  view_count : value;
  like_count : value;
  comment_count : value;
  favorite_count : value;
  transcription_language : value;
  segment_start : value;
  segment_end : value;
  segment_text : value;
  similarity : value
}.

(** The value stored under a video id by [group_results_by_video]. *)
Record group : Type := mk_group {
  video_info : dict value;
  segments : list row
}.

(** ** [search_similar_segments]: the re-check after the query *)

(** [result_dict['similarity'] and result_dict['similarity'] >= min_similarity],
    taken as the condition of the [if]. *)
Definition passes_threshold (result_dict : row) (min_similarity : Q) : res bool :=
  if truthy (similarity result_dict)
  then Py.ge (similarity result_dict) (VNum min_similarity)
  else Ok false.

(** The loop over the fetched rows; [results_list] is the list being built. *)
Fixpoint recheck_loop (results : list row) (min_similarity : Q)
    (results_list : list row) : res (list row) :=
  match results with
  | [] => Ok results_list
  | result_dict :: rest =>
      c <- passes_threshold result_dict min_similarity ;;
      if c
      then recheck_loop rest min_similarity (results_list ++ [result_dict])
      else recheck_loop rest min_similarity results_list
  end.

(** [fetched] are the rows returned by [cur.fetchall()], already zipped with
    the column names.  The [except Exception] clause logs and re-raises, so
    an exception of the loop is the exception of the function. *)
Definition search_similar_segments (fetched : list row) (min_similarity : Q)
    : res (list row) :=
  recheck_loop fetched min_similarity [].

(** ** [group_results_by_video] *)

(** The dictionary literal stored for a video id seen for the first time. *)
Definition new_group (vid : string) (result : row) : group :=
  {| video_info :=
       [ ("video_id", VStr vid);
         ("title", title result);
         ("description", description result);
         ("published_at", published_at result);
         ("duration", duration result);
         ("view_count", view_count result);
         ("like_count", like_count result);
         ("comment_count", comment_count result);
         ("favorite_count", favorite_count result) ];
     segments := [] |}.

(** [g['segments'].append(result)]: the list inside the group is updated in
    place, the group keeps its place in the dictionary. *)
Definition append_segment (result : row) (g : group) : group :=
  {| video_info := video_info g; segments := segments g ++ [result] |}.

(** The body of the first loop. *)
Definition group_step (video_groups : dict group) (result : row)
    : res (dict group) :=
  let vid := video_id result in
  let video_groups :=
    if dict_contains vid video_groups
    then video_groups
    else dict_setitem vid (new_group vid result) video_groups in
  g <- dict_getitem vid video_groups ;;
  Ok (dict_setitem vid (append_segment result g) video_groups).

Fixpoint group_loop (results : list row) (video_groups : dict group)
    : res (dict group) :=
  match results with
  | [] => Ok video_groups
  | result :: rest =>
      video_groups <- group_step video_groups result ;;
      group_loop rest video_groups
  end.

(** *** [list.sort(key=..., reverse=True)] and [sorted(..., reverse=True)]

    Python computes every key first, then sorts the decorated list with [<]
    on the keys only, stably, equal keys keeping their original order also
    under [reverse=True].  The result of a stable sort is unique, and a
    comparison of two keys of different kinds raises [TypeError] whichever
    pair meets first, so an insertion sort has the same results and the same
    exceptions as the library's algorithm. *)
Section ListSort.
Context {A : Type}.

Fixpoint decorate (key : A -> res value) (l : list A)
    : res (list (value * A)) :=
  match l with
  | [] => Ok []
  | x :: l' =>
      k <- key x ;;
      d <- decorate key l' ;;
      Ok ((k, x) :: d)
  end.

(** [x] stood before every element of [sorted] in the original list: it
    moves behind [y] only when its key is strictly smaller. *)
Fixpoint insert_desc (x : value * A) (sorted : list (value * A))
    : res (list (value * A)) :=
  match sorted with
  | [] => Ok [x]
  | y :: rest =>
      b <- Py.lt (fst x) (fst y) ;;
      if b
      then (r <- insert_desc x rest ;; Ok (y :: r))
      else Ok (x :: sorted)
  end.

Fixpoint sort_decorated (l : list (value * A)) : res (list (value * A)) :=
  match l with
  | [] => Ok []
  | x :: l' =>
      s <- sort_decorated l' ;;
      insert_desc x s
  end.

Definition sort_reverse (key : A -> res value) (l : list A) : res (list A) :=
  d <- decorate key l ;;
  s <- sort_decorated d ;;
  Ok (map snd s).
End ListSort.

(** [lambda x: x['similarity'] or 0] *)
Definition similarity_key (x : row) : res value :=
  Ok (Py.or_ (similarity x) (VNum 0)).

(** [lambda x: x[1]['segments'][0]['similarity'] or 0] *)
Definition best_segment_key (x : string * group) : res value :=
  s <- Py.getitem0 (segments (snd x)) ;;
  Ok (Py.or_ (similarity s) (VNum 0)).

(** The second loop: [for video_id in video_groups], over the keys. *)
Fixpoint sort_segments_loop (keys : list string) (video_groups : dict group)
    : res (dict group) :=
  match keys with
  | [] => Ok video_groups
  | vid :: rest =>
      g <- dict_getitem vid video_groups ;;
      s <- sort_reverse similarity_key (segments g) ;;
      sort_segments_loop rest
        (dict_setitem vid {| video_info := video_info g; segments := s |}
           video_groups)
  end.

Definition group_results_by_video (results : list row) : res (dict group) :=
  video_groups <- group_loop results [] ;;
  video_groups <- sort_segments_loop (dict_keys video_groups) video_groups ;;
  sorted_videos <- sort_reverse best_segment_key video_groups ;;
  Ok (dict_of_items sorted_videos).

(** *** What the renderers read from a group *)

(** [d.get(k)] on a dictionary of values *)
Definition dict_get (k : string) (d : dict value) : value :=
  match dict_lookup k d with
  | Some v => v
  | None => VNone
  end.

(** [best_segment = segments[0]] in [generate_html] and in the dashboard. *)
Definition best_segment (video_data : group) : res row :=
  Py.getitem0 (segments video_data).

(** [language = video_info.get("transcription_language") or "Unknown"]
    in the dashboard. *)
Definition card_language (video_data : group) : value :=
  Py.or_ (dict_get "transcription_language" (video_info video_data))
         (VStr "Unknown").

(** ** The formatting helpers *)

(** [str(n)] for an [int]: the decimal numeral without leading zeros. *)
Definition str (n : Z) : string :=
  NilZero.string_of_int (Z.to_int n).

(** [f"{n:02d}"]: at least two characters, zeros added on the left. *)
Definition fmt_02d (n : Z) : string :=
  let s := str n in
  if (String.length s <? 2)%nat then ("0" ++ s)%string else s.

(** [seconds] is [None] or an [int] (the dashboard passes [int(...)]
    values), so the conversions [int(...)] of the body change nothing.
    [//] and [%] with a positive divisor are [Z.div] and [Z.modulo], both
    rounding towards minus infinity. *)
Definition format_duration (seconds : option Z) : string :=
  match seconds with
  | None => "0:00"
  | Some seconds =>
      let hours := seconds / 3600 in
      let minutes := (seconds mod 3600) / 60 in
      let secs := seconds mod 60 in
      if 0 <? hours
      then (str hours ++ ":" ++ fmt_02d minutes ++ ":" ++ fmt_02d secs)%string
      else (str minutes ++ ":" ++ fmt_02d secs)%string
  end.

(** A finite binary64 number, [mantissa * 2 ^ exponent]. *)
Record float : Type := mk_float {
  mantissa : Z;
  exponent : Z
}.

(** [num / den] rounded to the nearest integer, a tie going to the even one;
    [den] is positive. *)
Definition round_half_even (num den : Z) : Z :=
  let q := num / den in
  let r := num mod den in
  if 2 * r <? den then q
  else if den <? 2 * r then q + 1
  else if Z.even q then q else q + 1.

(** The exponent at which [a / b], for positive [a] and [b], has a mantissa
    of 53 bits. *)
Definition quotient_exponent (a b : Z) : Z :=
  let e := Z.log2 a - Z.log2 b - 52 in
  let q := if 0 <=? e then a / (b * 2 ^ e) else (a * 2 ^ (- e)) / b in
  if q <? 2 ^ 52 then e - 1 else e.

(** The magnitude of [a / b] for positive [a] and [b]. *)
Definition truediv_pos (a b : Z) : res float :=
  let e := quotient_exponent a b in
  let m :=
    if 0 <=? e
    then round_half_even a (b * 2 ^ e)
    else round_half_even (a * 2 ^ (- e)) b in
  if 1024 <=? Z.log2 m + e
  then Raise OverflowError
  else Ok {| mantissa := m; exponent := e |}.

(** [a / b] on [int]s with a positive divisor: the binary64 number nearest
    to the quotient (ties to even), [OverflowError] beyond the largest one.
    The divisors of this program are [1_000] and [1_000_000], for which no
    quotient of a non-zero integer is subnormal. *)
Definition int_truediv (a : Z) (b : positive) : res float :=
  match a with
  | Z0 => Ok {| mantissa := 0; exponent := 0 |}
  | Zpos _ => truediv_pos a (Zpos b)
  | Zneg _ =>
      x <- truediv_pos (- a) (Zpos b) ;;
      Ok {| mantissa := - mantissa x; exponent := exponent x |}
  end.

(** The value times ten, rounded to an integer (ties to even): the digits
    that [.1f] prints. *)
Definition tenths (x : float) : Z :=
  let m := Z.abs (mantissa x) in
  if 0 <=? exponent x
  then 10 * m * 2 ^ exponent x
  else round_half_even (10 * m) (2 ^ (- exponent x)).

(** [f"{x:.1f}"] *)
Definition fmt_1f (x : float) : string :=
  let t := tenths x in
  let sign := if mantissa x <? 0 then "-" else "" in
  (sign ++ str (t / 10) ++ "." ++ str (t mod 10))%string.

(** [num] is [None] or an [int], a count column of the table. *)
Definition format_number (num : option Z) : res string :=
  match num with
  | None => Ok "0"
  | Some num =>
      if 1000000 <=? num
      then (x <- int_truediv num 1000000 ;; Ok (fmt_1f x ++ "M")%string)
      else if 1000 <=? num
      then (x <- int_truediv num 1000 ;; Ok (fmt_1f x ++ "K")%string)
      else Ok (str num)
  end.

(** ** Vocabulary of the statements *)

(** *** Similarities *)

(** The number that a value denotes, 0 for what is no number. *)
Definition num_of (v : value) : Q :=
  match v with
  | VNum q => q
  | _ => 0%Q
  end.

(** The similarity of a segment with a missing one read as 0: the number
    denoted by [x['similarity'] or 0]. *)
Definition similarity_or_0 (r : row) : Q :=
  num_of (Py.or_ (similarity r) (VNum 0)).

(** The similarity is [None] or a number, as the query produces it. *)
Definition numeric_similarity (r : row) : bool :=
  match similarity r with
  | VNone | VNum _ => true
  | VStr _ | VDatetime _ => false
  end.

(** The similarity is neither [None] nor a number, and it is truthy. *)
Definition malformed_similarity (r : row) : bool :=
  negb (numeric_similarity r) && truthy (similarity r).

(** The similarity is present and at least [min_similarity]. *)
Definition present_and_ge (min_similarity : Q) (r : row) : bool :=
  match similarity r with
  | VNum q => Qle_bool min_similarity q
  | _ => false
  end.

(** [filterByThreshold] as the specification words it. *)
Definition filterByThreshold_spec (candidates : list row) (min_similarity : Q)
    : list row :=
  filter (present_and_ge min_similarity) candidates.

(** What the re-check accepts on well-typed rows: a truthy similarity that
    is at least the threshold. *)
Definition accepted_by_recheck (min_similarity : Q) (r : row) : bool :=
  truthy (similarity r) && present_and_ge min_similarity r.

(** *** Groups *)

(** The video information that a match stands for: its video id and the
    eight video-level columns that [group_results_by_video] reads, under
    their names. The transcription language is not among them; see
    [video_metadata] for the bundle with it. *)
Definition metadata (r : row) : dict value :=
  [ ("video_id", VStr (video_id r));
    ("title", title r);
    ("description", description r);
    ("published_at", published_at r);
    ("duration", duration r);
    ("view_count", view_count r);
    ("like_count", like_count r);
    ("comment_count", comment_count r);
    ("favorite_count", favorite_count r) ].

(** The names of the video-level attributes of a match, as the data model
    of the specification lists them: title, description, publish
    timestamp, duration, the four counts and the transcription language. *)
Definition video_metadata_keys : list string :=
  [ "title"; "description"; "published_at"; "duration"; "view_count";
    "like_count"; "comment_count"; "favorite_count";
    "transcription_language" ].

(** The video-level metadata that a match carries, in the words of the
    specification. *)
Definition video_metadata (r : row) : dict value :=
  [ ("title", title r);
    ("description", description r);
    ("published_at", published_at r);
    ("duration", duration r);
    ("view_count", view_count r);
    ("like_count", like_count r);
    ("comment_count", comment_count r);
    ("favorite_count", favorite_count r);
    ("transcription_language", transcription_language r) ].

(** The video-level metadata of a group: the same attributes, as a
    consumer reads them from the video information with [d.get(key)]. *)
Definition group_metadata (grp : group) : dict value :=
  map (fun key => (key, dict_get key (video_info grp))) video_metadata_keys.

(** A bundle of metadata without its transcription language. *)
Definition without_language (d : dict value) : dict value :=
  filter (fun kv => negb (String.eqb (fst kv) "transcription_language")) d.

(** [r['video_id'] == vid] *)
Definition has_video_id (vid : string) (r : row) : bool :=
  String.eqb (video_id r) vid.

(** The first match of the input with a given video id. *)
Definition first_match (vid : string) (results : list row) : option row :=
  find (has_video_id vid) results.

(** The position of that first match (the length of the input if none). *)
Fixpoint first_pos (vid : string) (results : list row) : nat :=
  match results with
  | [] => O
  | r :: rest => if has_video_id vid r then O else S (first_pos vid rest)
  end.

(** The segments of all groups, in group order. *)
Definition flatten (g : dict group) : list row :=
  flat_map (fun kv => segments (snd kv)) g.

(** The similarity of the first segment of a group, read as 0 when missing. *)
Definition top_similarity (g : group) : Q :=
  match segments g with
  | s :: _ => similarity_or_0 s
  | [] => 0%Q
  end.

(** Matches of one video agree on the video-level fields. *)
Definition consistent_metadata (results : list row) : Prop :=
  forall r1 r2, In r1 results -> In r2 results ->
    video_id r1 = video_id r2 -> metadata r1 = metadata r2.

(** The distinct elements of a list, each at its first occurrence. *)
Fixpoint first_seen (ids : list string) : list string :=
  match ids with
  | [] => []
  | x :: rest => x :: filter (fun y => negb (String.eqb y x)) (first_seen rest)
  end.

(** The group of a video id after the first loop, in closed form: the
    video information of the first match, and all matches of the video in
    the order of the input. *)
Definition group_of (results : list row) (vid : string) : group :=
  {| video_info :=
       match first_match vid results with
       | Some r => metadata r
       | None => []
       end;
     segments := filter (has_video_id vid) results |}.

(** The dictionary after the first loop: the video ids in the order of
    their first occurrences. *)
Definition initial_groups (results : list row) : dict group :=
  map (fun vid => (vid, group_of results vid))
      (first_seen (map video_id results)).

(** [a] stands before [b] in [l]. *)
Definition before {A : Type} (a b : A) (l : list A) : Prop :=
  exists l1 l2 l3, l = l1 ++ a :: l2 ++ b :: l3.

(** *** A stable descending sort on rational keys *)

Section StableSort.
Context {A : Type} (key : A -> Q).

Definition key_lt (x y : A) : bool := negb (Qle_bool (key y) (key x)).

Fixpoint insert_stable (x : A) (sorted : list A) : list A :=
  match sorted with
  | [] => [x]
  | y :: rest =>
      if key_lt x y then y :: insert_stable x rest else x :: sorted
  end.

Definition sort_stable (l : list A) : list A :=
  fold_right insert_stable [] l.

(** Keys never increase along the list. *)
Definition non_increasing (l : list A) : Prop :=
  StronglySorted (fun a b => (key b <= key a)%Q) l.

Definition has_key (q : Q) (x : A) : bool := Qeq_bool (key x) q.
End StableSort.

(** A group with its segments in stable descending order of similarity. *)
Definition sort_group_segments (kv : string * group) : string * group :=
  (fst kv,
   {| video_info := video_info (snd kv);
      segments := sort_stable similarity_or_0 (segments (snd kv)) |}).

(** A group with the video information that its first segment stands for
    in place of its own. *)
Definition with_best_metadata (kv : string * group) : string * group :=
  (fst kv,
   {| video_info :=
        match segments (snd kv) with
        | s :: _ => metadata s
        | [] => []
        end;
      segments := segments (snd kv) |}).

(** Two items with the same key and the same video information, the
    segments of the one being the segments of the other rearranged. *)
Definition same_group (a b : string * group) : Prop :=
  fst a = fst b /\ video_info (snd a) = video_info (snd b) /\
  Permutation (segments (snd a)) (segments (snd b)).

(** Every segment of the group has a numeric or missing similarity. *)
Definition numeric_group (kv : string * group) : Prop :=
  forall r, In r (segments (snd kv)) -> numeric_similarity r = true.

(** The result of [group_results_by_video] on numeric similarities, in
    closed form: the groups of the first loop, each with its segments in
    stable descending order, in stable descending order of their first
    segments. *)
Definition sorted_groups (results : list row) : dict group :=
  sort_stable (fun kv => top_similarity (snd kv))
    (map sort_group_segments (initial_groups results)).

(** *** Formatting *)

(** The character of a decimal digit. *)
Definition digit (n : Z) : ascii := ascii_of_nat (48 + Z.to_nat n).

(** Exactly two decimal digits, for [0 <= n < 100]. *)
Definition two_digits (n : Z) : string :=
  String (digit (n / 10)) (String (digit (n mod 10)) "").

(** [formatDuration] as the specification words it. *)
Definition format_duration_spec (seconds : option Z) : string :=
  match seconds with
  | None => "0:00"
  | Some s =>
      if s <? 0 then "0:00"
      else if s <? 3600
      then (str (s / 60) ++ ":" ++ two_digits (s mod 60))%string
      else (str (s / 3600) ++ ":" ++ two_digits ((s / 60) mod 60)
              ++ ":" ++ two_digits (s mod 60))%string
  end.

(** The numeral of [t] tenths with one decimal. *)
Definition one_decimal (t : Z) : string :=
  (str (t / 10) ++ "." ++ str (t mod 10))%string.

(** [t] tenths is a one-decimal number nearest to [n / d]:
    [|t / 10 - n / d| <= 1 / 20]. *)
Definition nearest_tenths (t n d : Z) : Prop :=
  2 * Z.abs (t * d - 10 * n) <= d.

(** Counts up to which one-decimal millions are the nearest ones:
    [2 ^ 34] millions. *)
Definition millions_bound : Z := 17179869184000000.

(** *** Concrete rows *)

(** A row with the given video id, title, language and similarity. *)
Definition sample_row (vid : string) (ttl : string) (lang : value)
    (sim : value) : row :=
  {| video_id := vid; title := VStr ttl; description := VNone;
     published_at := VDatetime 1700000000; duration := VNum 300;
     view_count := VNum 1500; like_count := VNum 10;
     comment_count := VNum 2; favorite_count := VNum 0;
     transcription_language := lang;
     segment_start := VNum 12; segment_end := VNum 20;
     segment_text := VStr "text"; similarity := sim |}.

(** Matches of three videos, with a tie inside a group and a tie between
    the first segments of two groups. *)
Definition sample_results : list row :=
  [ sample_row "v1" "talk" (VStr "en") (VNum 0.6);
    sample_row "v2" "news" (VStr "en") (VNum 0.8);
    sample_row "v1" "talk" (VStr "en") (VNum 0.6);
    sample_row "v3" "song" (VStr "fr") (VNum 0.9);
    sample_row "v2" "news" (VStr "en") (VNum 0.9);
    sample_row "v3" "song" (VStr "fr") VNone ].

(** Two matches of one video that disagree on the title. *)
Definition retitled_results : list row :=
  [ sample_row "v1" "first title" (VStr "en") (VNum 0.5);
    sample_row "v1" "second title" (VStr "en") (VNum 0.9) ].

(** ** The callers: [generate_html] and the dashboard *)

(** *** What the static page counts and shows *)

(** [sum(len(group['segments']) for group in video_groups.values())] *)
Definition html_total_segments (video_groups : dict group) : nat :=
  list_sum (map (fun kv => List.length (segments (snd kv))) video_groups).

(** [len(video_groups)] *)
Definition html_unique_videos (video_groups : dict group) : nat :=
  List.length video_groups.



(** *** What the dashboard shows *)


(** *** The dashboard's filter by politician *)

(** A computation that returns or raises [AttributeError]. *)
Inductive attempt (A : Type) : Type :=
| Done (a : A)
| AttributeError.
Arguments Done {A} a.
Arguments AttributeError {A}.

(** [name in text] on strings *)
Fixpoint contains (name text : string) : bool :=
  if String.prefix name text then true
  else match text with
       | EmptyString => false
       | String _ rest => contains name rest
       end.

Section Politician.
(** [str.lower] *)
Variable lower : string -> string.

(** [(v or "").lower()]: only a string has the method. *)
Definition lower_or_empty (v : value) : attempt string :=
  match Py.or_ v (VStr "") with
  | VStr s => Done (lower s)
  | _ => AttributeError
  end.

(** The condition [name in title or name in desc], after both fields were
    lowered. *)
Definition mentions (name : string) (r : row) : attempt bool :=
  match lower_or_empty (title r) with
  | AttributeError => AttributeError
  | Done ttl =>
      match lower_or_empty (description r) with
      | AttributeError => AttributeError
      | Done desc => Done (contains name ttl || contains name desc)
      end
  end.

Fixpoint politician_loop (name : string) (results filtered : list row)
    : attempt (list row) :=
  match results with
  | [] => Done filtered
  | r :: rest =>
      match mentions name r with
      | AttributeError => AttributeError
      | Done true => politician_loop name rest (filtered ++ [r])
      | Done false => politician_loop name rest filtered
      end
  end.

Definition filter_by_politician (main_category sub_category : string)
    (results : list row) : attempt (list row) :=
  if String.eqb main_category "Speeches of politicians"
     && negb (String.eqb sub_category "Any")
  then politician_loop (lower sub_category) results []
  else Done results.

End Politician.

(** *** Vocabulary for the callers *)

(** The title and the description are strings or missing, as the text
    columns of the table are. *)
Definition text_fields (r : row) : bool :=
  match title r, description r with
  | (VNone | VStr _), (VNone | VStr _) => true
  | _, _ => false
  end.

(** [(v or "")] is a string: the value is a string or falsy. *)
Definition lowerable (v : value) : bool :=
  match Py.or_ v (VStr "") with
  | VStr _ => true
  | _ => false
  end.

Definition lowerable_fields (r : row) : bool :=
  lowerable (title r) && lowerable (description r).

(** [(v or "")] for a text field. *)
Definition text_of (v : value) : string :=
  match v with
  | VStr s => s
  | _ => ""
  end.

(** The lowered title or the lowered description contains the name. *)
Definition mentions_text (lower : string -> string) (name : string)
    (ttl desc : value) : bool :=
  contains name (lower (text_of ttl)) || contains name (lower (text_of desc)).

Definition row_mentions (lower : string -> string) (name : string)
    (r : row) : bool :=
  mentions_text lower name (title r) (description r).

(** The same test on the video information of a group. *)
Definition group_mentions (lower : string -> string) (name : string)
    (kv : string * group) : bool :=
  mentions_text lower name (dict_get "title" (video_info (snd kv)))
                (dict_get "description" (video_info (snd kv))).

(** A politician was chosen in the side bar. *)
Definition politician_chosen (main_category sub_category : string) : bool :=
  String.eqb main_category "Speeches of politicians"
  && negb (String.eqb sub_category "Any").

(** The kind of a sort key: numbers, strings and datetimes compare only
    among themselves. *)
Inductive kind : Type := KNum | KStr | KDatetime | KNone.

Definition kind_of (v : value) : kind :=
  match v with
  | VNone => KNone
  | VNum _ => KNum
  | VStr _ => KStr
  | VDatetime _ => KDatetime
  end.

(** The kind of [x['similarity'] or 0]. *)
Definition key_kind (r : row) : kind :=
  kind_of (Py.or_ (similarity r) (VNum 0)).

(** * Properties *)

(** ** The error monad *)

Lemma bind_Ok_inv {A B : Type} (c : res A) (k : A -> res B) (b : B) :
  (x <- c ;; k x) = Ok b -> exists a, c = Ok a /\ k a = Ok b.
Proof.
  destruct c as [a | e]; simpl; intros H.
  - exists a. split; [reflexivity | exact H].
  - discriminate H.
Qed.

Lemma bind_Raise_inv {A B : Type} (c : res A) (k : A -> res B) (e : exn) :
  (x <- c ;; k x) = Raise e ->
  c = Raise e \/ exists a, c = Ok a /\ k a = Raise e.
Proof.
  destruct c as [a | e']; simpl; intros H.
  - right. exists a. split; [reflexivity | exact H].
  - left. injection H as ->. reflexivity.
Qed.

(** ** The threshold re-check *)

Section Recheck.
Variable min_similarity : Q.

(** The comparison is the only operation of the loop that can raise. *)
Lemma passes_threshold_cases (r : row) :
  passes_threshold r min_similarity = Raise TypeError \/
  (malformed_similarity r = false /\
   passes_threshold r min_similarity
     = Ok (accepted_by_recheck min_similarity r)).
Proof.
  unfold passes_threshold, malformed_similarity, numeric_similarity,
    accepted_by_recheck, present_and_ge.
  destruct (similarity r) as [ | q | s | t]; simpl.
  - right. split; reflexivity.
  - right. split; [reflexivity | destruct (Qeq_bool q 0); reflexivity].
  - destruct (String.eqb s ""); simpl; [right; split; reflexivity | now left].
  - now left.
Qed.

Lemma recheck_loop_well_typed (rows acc : list row) :
  forallb (fun r => negb (malformed_similarity r)) rows = true ->
  recheck_loop rows min_similarity acc
    = Ok (acc ++ filter (accepted_by_recheck min_similarity) rows).
Proof.
  revert acc. induction rows as [ | r rows IH]; intros acc Hall; simpl.
  - now rewrite app_nil_r.
  - simpl in Hall. apply andb_true_iff in Hall as [Hr Hrows].
    apply negb_true_iff in Hr.
    destruct (passes_threshold_cases r) as [Hraise | [_ Hok]].
    + exfalso. unfold passes_threshold, malformed_similarity,
        numeric_similarity in *.
      destruct (similarity r) as [ | q | s | t]; simpl in *;
        try discriminate.
      * destruct (Qeq_bool q 0); discriminate.
      * destruct (String.eqb s ""); discriminate.
    + rewrite Hok. simpl.
      destruct (accepted_by_recheck min_similarity r).
      * rewrite IH by exact Hrows. now rewrite <- app_assoc.
      * now apply IH.
Qed.

Lemma recheck_loop_malformed (rows acc : list row) :
  existsb malformed_similarity rows = true ->
  recheck_loop rows min_similarity acc = Raise TypeError.
Proof.
  revert acc. induction rows as [ | r rows IH]; intros acc Hex; simpl.
  - discriminate Hex.
  - destruct (passes_threshold_cases r) as [Hraise | [Hwell Hok]].
    + rewrite Hraise. reflexivity.
    + rewrite Hok. simpl in Hex |- *. rewrite Hwell in Hex. simpl in Hex.
      destruct (accepted_by_recheck min_similarity r); now apply IH.
Qed.
End Recheck.

Lemma numeric_not_malformed (rows : list row) :
  forallb numeric_similarity rows = true ->
  forallb (fun r => negb (malformed_similarity r)) rows = true.
Proof.
  induction rows as [ | r rows IH]; simpl; [reflexivity | ].
  intros H. apply andb_true_iff in H as [Hr Hrows].
  unfold malformed_similarity at 1. rewrite Hr. simpl. now apply IH.
Qed.

(** On rows typed as the query produces them, the function returns the rows
    whose similarity is truthy and at least the threshold, in order. *)
Lemma search_similar_segments_numeric (fetched : list row) (t : Q) :
  forallb numeric_similarity fetched = true ->
  search_similar_segments fetched t
    = Ok (filter (accepted_by_recheck t) fetched).
Proof.
  intros H. unfold search_similar_segments.
  rewrite recheck_loop_well_typed by now apply numeric_not_malformed.
  reflexivity.
Qed.

Lemma truthy_of_positive (q t : Q) :
  (0 < t)%Q -> Qle_bool t q = true -> negb (Qeq_bool q 0) = true.
Proof.
  intros Ht Hle. apply Qle_bool_iff in Hle.
  apply negb_true_iff. destruct (Qeq_bool q 0) eqn:E; [ | reflexivity].
  apply Qeq_bool_iff in E. exfalso. apply (Qlt_irrefl 0).
  apply Qlt_le_trans with t; [exact Ht | ]. rewrite <- E. exact Hle.
Qed.

(** For a positive threshold the re-check is the filter of the
    specification; every accepted row has a similarity that is present and
    at least the threshold. *)
Lemma search_similar_segments_positive_threshold (fetched : list row) (t : Q) :
  (0 < t)%Q ->
  forallb numeric_similarity fetched = true ->
  search_similar_segments fetched t = Ok (filterByThreshold_spec fetched t).
Proof.
  intros Ht H. rewrite search_similar_segments_numeric by exact H.
  f_equal. unfold filterByThreshold_spec. apply filter_ext. intros r.
  unfold accepted_by_recheck, present_and_ge.
  destruct (similarity r) as [ | q | s | u]; simpl;
    rewrite ?andb_false_r; try reflexivity.
  destruct (Qle_bool t q) eqn:E.
  - now rewrite (truthy_of_positive q t Ht E).
  - now rewrite andb_false_r.
Qed.

Lemma no_malformed_similarity (rows : list row) :
  existsb malformed_similarity rows = false ->
  forallb (fun r => negb (malformed_similarity r)) rows = true.
Proof.
  induction rows as [ | r rows IH]; simpl; [reflexivity | ].
  intros H. apply orb_false_iff in H as [Hr Hrows]. rewrite Hr. simpl.
  now apply IH.
Qed.

(** Whatever was fetched, every row of a list that the function returns
    has a similarity that is a number and at least the threshold. *)
Lemma accepted_rows_meet_threshold (fetched accepted : list row) (t : Q) :
  search_similar_segments fetched t = Ok accepted ->
  forall r, In r accepted ->
    exists q, similarity r = VNum q /\ (t <= q)%Q.
Proof.
  intros Hs r Hr. unfold search_similar_segments in Hs.
  destruct (existsb malformed_similarity fetched) eqn:E.
  - rewrite recheck_loop_malformed in Hs by exact E. discriminate Hs.
  - rewrite recheck_loop_well_typed in Hs by now apply no_malformed_similarity.
    injection Hs as <-. simpl in Hr. apply filter_In in Hr as [_ Hacc].
    unfold accepted_by_recheck, present_and_ge in Hacc.
    destruct (similarity r) as [ | q | s | u]; simpl in Hacc;
      rewrite ?andb_false_r in Hacc; try discriminate.
    exists q. split; [reflexivity | ].
    apply andb_true_iff in Hacc as [_ Hle]. now apply Qle_bool_iff.
Qed.

(** The accepted matches are inputs of the kind that the properties of
    [group_results_by_video] below are stated for. *)
Lemma accepted_rows_are_numeric (fetched accepted : list row) (t : Q) :
  search_similar_segments fetched t = Ok accepted ->
  forallb numeric_similarity accepted = true.
Proof.
  intros Hs. apply forallb_forall. intros r Hr.
  destruct (accepted_rows_meet_threshold _ _ _ Hs r Hr) as [q [Hq _]].
  unfold numeric_similarity. now rewrite Hq.
Qed.

(** C1.  The re-check drops a match whose similarity is 0.0 when the
    threshold is 0.0, although that similarity is present and not below the
    threshold: the filter of the specification keeps the match, the code
    returns the empty list. *)
Theorem recheck_drops_zero_similarity :
  let candidate := sample_row "v1" "talk" (VStr "en") (VNum 0) in
  (0 <= 0 <= 1)%Q /\
  filterByThreshold_spec [candidate] 0 = [candidate] /\
  search_similar_segments [candidate] 0 = Ok [].
Proof.
  simpl. repeat split; try reflexivity; lra.
Qed.

(** C9.  The claim fails on a row whose similarity is a non-empty string:
    the query does not complete. *)
Lemma recheck_aborts_on_string_similarity :
  let bad := sample_row "v1" "talk" (VStr "en") (VStr "n/a") in
  let good := sample_row "v2" "news" (VStr "en") (VNum 0.9) in
  search_similar_segments [good; bad] 0.4 = Raise TypeError /\
  ~ (exists accepted, search_similar_segments [good; bad] 0.4 = Ok accepted).
Proof.
  simpl. split; [reflexivity | ].
  intros [accepted H]. vm_compute in H. discriminate H.
Qed.

(** C9, as the code has it.  A similarity that is neither a number nor
    falsy makes the comparison raise [TypeError], and the function raises it
    too: nothing is returned.  Without such a row the function completes,
    and a falsy similarity of any type is left out silently. *)
Theorem recheck_malformed_similarity (fetched : list row) (t : Q) :
  (existsb malformed_similarity fetched = true ->
   search_similar_segments fetched t = Raise TypeError) /\
  (existsb malformed_similarity fetched = false ->
   exists accepted,
     search_similar_segments fetched t = Ok accepted /\
     accepted = filter (accepted_by_recheck t) fetched /\
     forall r, In r accepted -> truthy (similarity r) = true).
Proof.
  split.
  - intros H. now apply recheck_loop_malformed.
  - intros H. exists (filter (accepted_by_recheck t) fetched).
    split; [ | split; [reflexivity | ]].
    + unfold search_similar_segments.
      now rewrite recheck_loop_well_typed by now apply no_malformed_similarity.
    + intros r Hr. apply filter_In in Hr as [_ Hacc].
      unfold accepted_by_recheck in Hacc.
      now apply andb_true_iff in Hacc as [Htr _].
Qed.

Lemma recheck_malformed_similarity_witness :
  search_similar_segments
    [sample_row "v1" "talk" (VStr "en") (VStr "n/a")] 0.4 = Raise TypeError.
Proof.
  apply (proj1 (recheck_malformed_similarity
                  [sample_row "v1" "talk" (VStr "en") (VStr "n/a")] 0.4)).
  reflexivity.
Defined.

(** ** Dictionaries *)

Section DictFacts.
Context {V : Type}.
Implicit Types (d : dict V) (k : string) (v : V).

Lemma dict_lookup_None d k :
  dict_lookup k d = None <-> ~ In k (dict_keys d).
Proof.
  induction d as [ | [k' v'] d IH]; simpl.
  - tauto.
  - destruct (String.eqb_spec k k') as [-> | Hne].
    + split; [discriminate | intros H; exfalso; apply H; now left].
    + rewrite IH. split.
      * intros H [Heq | Hin]; [congruence | contradiction].
      * intros H Hin. apply H. now right.
Qed.

Lemma dict_lookup_In d k v :
  dict_lookup k d = Some v -> In (k, v) d.
Proof.
  induction d as [ | [k' v'] d IH]; simpl; [discriminate | ].
  destruct (String.eqb_spec k k') as [-> | Hne].
  - intros [= ->]. now left.
  - intros H. right. now apply IH.
Qed.

Lemma dict_lookup_NoDup d k v :
  NoDup (dict_keys d) -> In (k, v) d -> dict_lookup k d = Some v.
Proof.
  induction d as [ | [k' v'] d IH]; simpl; [contradiction | ].
  intros Hnd [Heq | Hin].
  - injection Heq as -> ->. now rewrite String.eqb_refl.
  - inversion Hnd as [ | ? ? Hnotin Hnd']; subst.
    destruct (String.eqb_spec k k') as [-> | Hne].
    + exfalso. apply Hnotin. unfold dict_keys.
      change k' with (fst (k', v)). now apply in_map.
    + now apply IH.
Qed.

Lemma dict_setitem_absent d k v :
  dict_lookup k d = None -> dict_setitem k v d = d ++ [(k, v)].
Proof.
  induction d as [ | [k' v'] d IH]; simpl; [reflexivity | ].
  destruct (String.eqb k k'); [discriminate | ].
  intros H. now rewrite IH.
Qed.

Lemma dict_lookup_last d k v :
  dict_lookup k d = None -> dict_lookup k (d ++ [(k, v)]) = Some v.
Proof.
  induction d as [ | [k' v'] d IH]; simpl.
  - now rewrite String.eqb_refl.
  - destruct (String.eqb k k'); [discriminate | exact IH].
Qed.

Lemma dict_setitem_last d k v v' :
  dict_lookup k d = None ->
  dict_setitem k v' (d ++ [(k, v)]) = d ++ [(k, v')].
Proof.
  induction d as [ | [k0 v0] d IH]; simpl.
  - now rewrite String.eqb_refl.
  - destruct (String.eqb k k0); [discriminate | ].
    intros H. now rewrite IH.
Qed.

(** Replacing the value of the key in the middle of a dictionary. *)
Lemma dict_lookup_middle (d1 d2 : dict V) k v :
  ~ In k (dict_keys d1) -> dict_lookup k (d1 ++ (k, v) :: d2) = Some v.
Proof.
  induction d1 as [ | [k0 v0] d1 IH]; simpl.
  - now rewrite String.eqb_refl.
  - intros H. destruct (String.eqb_spec k k0) as [-> | Hne].
    + exfalso. apply H. now left.
    + apply IH. intros Hin. apply H. now right.
Qed.

Lemma dict_setitem_middle (d1 d2 : dict V) k v v' :
  ~ In k (dict_keys d1) ->
  dict_setitem k v' (d1 ++ (k, v) :: d2) = d1 ++ (k, v') :: d2.
Proof.
  induction d1 as [ | [k0 v0] d1 IH]; simpl.
  - now rewrite String.eqb_refl.
  - intros H. destruct (String.eqb_spec k k0) as [-> | Hne].
    + exfalso. apply H. now left.
    + rewrite IH; [reflexivity | ]. intros Hin. apply H. now right.
Qed.

(** [dict] of a list of items with distinct keys is that list. *)
Lemma dict_of_items_NoDup (items : list (string * V)) :
  NoDup (map fst items) -> dict_of_items items = items.
Proof.
  unfold dict_of_items.
  assert (G : forall acc : dict V,
    NoDup (map fst (acc ++ items)) ->
    fold_left (fun d kv => dict_setitem (fst kv) (snd kv) d) items acc
      = acc ++ items).
  { induction items as [ | [k v] items IH]; intros acc Hnd; simpl.
    - now rewrite app_nil_r.
    - rewrite dict_setitem_absent.
      + rewrite IH; rewrite <- app_assoc; [reflexivity | exact Hnd].
      + apply dict_lookup_None. unfold dict_keys.
        rewrite map_app in Hnd. simpl in Hnd.
        apply NoDup_remove_2 in Hnd. intros Hin. apply Hnd.
        apply in_or_app. now left. }
  intros Hnd. now apply (G []).
Qed.
End DictFacts.

(** ** The first loop *)

Lemma first_seen_In (ids : list string) (x : string) :
  In x (first_seen ids) <-> In x ids.
Proof.
  induction ids as [ | y ids IH]; simpl; [tauto | ].
  rewrite filter_In, IH. destruct (String.eqb_spec x y) as [-> | Hne]; simpl.
  - split; [intros _; now left | intros _; now left].
  - split.
    + intros [Heq | [Hin _]]; [now left | now right].
    + intros [Heq | Hin]; [now left | right; now split].
Qed.

Lemma first_seen_NoDup (ids : list string) : NoDup (first_seen ids).
Proof.
  induction ids as [ | y ids IH]; simpl; constructor.
  - rewrite filter_In. intros [_ H]. now rewrite String.eqb_refl in H.
  - now apply NoDup_filter.
Qed.

Lemma first_seen_snoc (ids : list string) (v : string) :
  first_seen (ids ++ [v])
    = if existsb (String.eqb v) ids then first_seen ids
      else first_seen ids ++ [v].
Proof.
  induction ids as [ | y ids IH]; simpl; [reflexivity | ].
  rewrite IH. destruct (String.eqb_spec v y) as [-> | Hne]; simpl.
  - destruct (existsb (String.eqb y) ids); [reflexivity | ].
    rewrite filter_app. simpl. rewrite String.eqb_refl. simpl.
    now rewrite app_nil_r.
  - destruct (existsb (String.eqb v) ids); [reflexivity | ].
    rewrite filter_app. simpl.
    destruct (String.eqb_spec v y); [contradiction | reflexivity].
Qed.

Lemma existsb_eqb_In (ids : list string) (v : string) :
  existsb (String.eqb v) ids = true <-> In v ids.
Proof.
  rewrite existsb_exists. split.
  - intros [x [Hin Heq]]. apply String.eqb_eq in Heq. now subst.
  - intros Hin. exists v. split; [exact Hin | apply String.eqb_refl].
Qed.

Lemma first_match_snoc (vid : string) (l : list row) (r : row) :
  first_match vid (l ++ [r])
    = match first_match vid l with
      | Some r0 => Some r0
      | None => if has_video_id vid r then Some r else None
      end.
Proof.
  unfold first_match. induction l as [ | x l IH]; simpl.
  - reflexivity.
  - destruct (has_video_id vid x); [reflexivity | exact IH].
Qed.

Lemma first_match_None (vid : string) (l : list row) :
  first_match vid l = None <-> ~ In vid (map video_id l).
Proof.
  unfold first_match. induction l as [ | x l IH]; simpl; [tauto | ].
  unfold has_video_id at 1.
  destruct (String.eqb_spec (video_id x) vid) as [Heq | Hne].
  - split; [discriminate | intros H; exfalso; apply H; now left].
  - rewrite IH. tauto.
Qed.

Lemma filter_video_id_nil (vid : string) (l : list row) :
  ~ In vid (map video_id l) -> filter (has_video_id vid) l = [].
Proof.
  induction l as [ | x l IH]; simpl; [reflexivity | ].
  intros H. unfold has_video_id at 1.
  destruct (String.eqb_spec (video_id x) vid) as [Heq | Hne].
  - exfalso. apply H. now left.
  - apply IH. tauto.
Qed.

Lemma group_of_snoc_other (l : list row) (r : row) (u : string) :
  u <> video_id r -> group_of (l ++ [r]) u = group_of l u.
Proof.
  intros Hne. unfold group_of. rewrite first_match_snoc, filter_app. simpl.
  assert (E : has_video_id u r = false).
  { unfold has_video_id. apply String.eqb_neq. congruence. }
  rewrite E, app_nil_r. now destruct (first_match u l).
Qed.

Lemma group_of_snoc_seen (l : list row) (r : row) :
  In (video_id r) (map video_id l) ->
  group_of (l ++ [r]) (video_id r)
    = append_segment r (group_of l (video_id r)).
Proof.
  intros Hin. unfold group_of, append_segment. simpl.
  rewrite first_match_snoc, filter_app. simpl.
  unfold has_video_id at 3. rewrite String.eqb_refl.
  destruct (first_match (video_id r) l) eqn:E; [reflexivity | ].
  apply first_match_None in E. contradiction.
Qed.

Lemma group_of_snoc_new (l : list row) (r : row) :
  ~ In (video_id r) (map video_id l) ->
  group_of (l ++ [r]) (video_id r)
    = append_segment r (new_group (video_id r) r).
Proof.
  intros Hnotin. unfold group_of, append_segment. simpl.
  rewrite first_match_snoc, filter_app. simpl.
  unfold has_video_id at 1 3. rewrite String.eqb_refl.
  rewrite (proj2 (first_match_None _ _) Hnotin).
  now rewrite filter_video_id_nil.
Qed.

Lemma initial_groups_keys (l : list row) :
  dict_keys (initial_groups l) = first_seen (map video_id l).
Proof.
  unfold dict_keys, initial_groups. rewrite map_map. simpl. apply map_id.
Qed.

Lemma initial_groups_lookup (l : list row) (vid : string) :
  In vid (map video_id l) ->
  dict_lookup vid (initial_groups l) = Some (group_of l vid).
Proof.
  intros Hin. apply dict_lookup_NoDup.
  - rewrite initial_groups_keys. apply first_seen_NoDup.
  - unfold initial_groups.
    apply (in_map (fun v => (v, group_of l v))). now apply first_seen_In.
Qed.

Lemma group_step_initial (l : list row) (r : row) :
  group_step (initial_groups l) r = Ok (initial_groups (l ++ [r])).
Proof.
  unfold group_step. set (v := video_id r).
  assert (Hkeys' : first_seen (map video_id (l ++ [r]))
                   = if existsb (String.eqb v) (map video_id l)
                     then first_seen (map video_id l)
                     else first_seen (map video_id l) ++ [v]).
  { rewrite map_app. simpl. apply first_seen_snoc. }
  destruct (existsb (String.eqb v) (map video_id l)) eqn:Hseen.
  - (* the video has a group already *)
    apply existsb_eqb_In in Hseen.
    unfold dict_contains, dict_getitem.
    rewrite (initial_groups_lookup l v Hseen).
    rewrite (initial_groups_lookup l v Hseen). simpl. f_equal.
    unfold initial_groups. rewrite Hkeys'.
    pose proof (first_seen_NoDup (map video_id l)) as Hnd.
    apply first_seen_In in Hseen.
    destruct (in_split _ _ Hseen) as [k1 [k2 Hsplit]].
    rewrite Hsplit in Hnd |- *.
    apply NoDup_remove_2 in Hnd.
    rewrite !map_app. simpl.
    rewrite dict_setitem_middle.
    + f_equal; [ | f_equal].
      * apply map_ext_in. intros u Hu. f_equal. symmetry.
        apply group_of_snoc_other. intros ->. apply Hnd, in_or_app. now left.
      * f_equal. symmetry. now apply group_of_snoc_seen, first_seen_In;
          rewrite Hsplit; apply in_or_app; right; left.
      * apply map_ext_in. intros u Hu. f_equal. symmetry.
        apply group_of_snoc_other. intros ->. apply Hnd, in_or_app. now right.
    + unfold dict_keys. rewrite map_map. simpl. rewrite map_id.
      intros Hin. apply Hnd, in_or_app. now left.
  - (* a new video *)
    assert (Hnotin : ~ In v (map video_id l)).
    { intros Hin. apply existsb_eqb_In in Hin. congruence. }
    assert (Hnone : dict_lookup v (initial_groups l) = None).
    { apply dict_lookup_None. rewrite initial_groups_keys.
      now rewrite first_seen_In. }
    unfold dict_contains, dict_getitem. rewrite Hnone.
    rewrite (dict_setitem_absent _ _ _ Hnone).
    rewrite (dict_lookup_last _ _ _ Hnone). simpl.
    rewrite (dict_setitem_last _ _ _ _ Hnone). f_equal.
    unfold initial_groups. rewrite Hkeys', map_app. simpl. f_equal.
    + apply map_ext_in. intros u Hu. f_equal. symmetry.
      apply group_of_snoc_other. intros ->. apply Hnotin.
      now apply first_seen_In.
    + f_equal. f_equal. symmetry. now apply group_of_snoc_new.
Qed.

Lemma group_loop_app (l1 l2 : list row) (acc : dict group) :
  group_loop (l1 ++ l2) acc = (vg <- group_loop l1 acc ;; group_loop l2 vg).
Proof.
  revert acc. induction l1 as [ | r l1 IH]; intros acc; simpl.
  - reflexivity.
  - destruct (group_step acc r) as [vg | e]; simpl; [apply IH | reflexivity].
Qed.

(** The first loop never raises: it builds one group per distinct video id,
    in the order of first occurrence, with the video information of the
    first match and all matches of the video in input order. *)
Lemma group_loop_initial (results : list row) :
  group_loop results [] = Ok (initial_groups results).
Proof.
  induction results as [ | r l IH] using rev_ind.
  - reflexivity.
  - rewrite group_loop_app, IH. simpl.
    destruct (group_step (initial_groups l) r) as [vg | e] eqn:E;
      rewrite group_step_initial in E.
    + now injection E as <-.
    + discriminate E.
Qed.

Lemma initial_groups_In (results : list row) (kv : string * group) :
  In kv (initial_groups results) <->
  In (fst kv) (map video_id results) /\
  snd kv = group_of results (fst kv).
Proof.
  unfold initial_groups. rewrite in_map_iff. split.
  - intros [v [<- Hv]]. simpl. split; [now apply first_seen_In | reflexivity].
  - intros [Hin Heq]. exists (fst kv). split.
    + destruct kv as [k g]. simpl in *. now subst.
    + now apply first_seen_In.
Qed.

Lemma filter_video_id_nonempty (vid : string) (l : list row) :
  In vid (map video_id l) -> filter (has_video_id vid) l <> [].
Proof.
  intros Hin Hnil. apply in_map_iff in Hin as [r [Hid Hr]].
  assert (H : In r (filter (has_video_id vid) l)).
  { apply filter_In. split; [exact Hr | ].
    unfold has_video_id. now apply String.eqb_eq. }
  rewrite Hnil in H. contradiction.
Qed.

Lemma initial_groups_nonempty (results : list row) :
  Forall (fun kv => segments (snd kv) <> []) (initial_groups results).
Proof.
  apply Forall_forall. intros kv Hkv.
  apply initial_groups_In in Hkv as [Hin ->]. simpl.
  now apply filter_video_id_nonempty.
Qed.

(** The groups of the first loop hold the input, each match once. *)
Lemma flatten_initial_groups (results : list row) :
  Permutation (flatten (initial_groups results)) results.
Proof.
  induction results as [ | r l IH] using rev_ind.
  - apply Permutation_refl.
  - assert (E : forall (d : dict group) (v : string) (g : group),
               flatten (d ++ [(v, g)]) = flatten d ++ segments g).
    { intros d v g. unfold flatten. rewrite flat_map_app. simpl.
      now rewrite app_nil_r. }
    pose proof (group_step_initial l r) as Hstep.
    unfold group_step in Hstep.
    destruct (dict_contains (video_id r) (initial_groups l)) eqn:Hc.
    + unfold dict_contains in Hc. unfold dict_getitem in Hstep.
      destruct (dict_lookup (video_id r) (initial_groups l)) as [g | ] eqn:Hl;
        [ | discriminate Hc].
      simpl in Hstep. injection Hstep as <-.
      apply dict_lookup_In in Hl. destruct (in_split _ _ Hl) as [d1 [d2 Hd]].
      assert (Hnotin : ~ In (video_id r) (dict_keys d1)).
      { pose proof (first_seen_NoDup (map video_id l)) as Hnd.
        rewrite <- initial_groups_keys, Hd in Hnd. unfold dict_keys in *.
        rewrite map_app in Hnd. simpl in Hnd. apply NoDup_remove_2 in Hnd.
        intros Hin. apply Hnd, in_or_app. now left. }
      rewrite Hd in IH |- *. rewrite dict_setitem_middle by exact Hnotin.
      unfold flatten in *. rewrite flat_map_app in *. simpl in *.
      rewrite <- app_assoc.
      apply Permutation_trans with
        ((flat_map (fun kv => segments (snd kv)) d1
          ++ segments g ++ flat_map (fun kv => segments (snd kv)) d2) ++ [r]).
      * rewrite <- !app_assoc. apply Permutation_app_head.
        apply Permutation_app_head. apply Permutation_app_comm.
      * now apply Permutation_app_tail.
    + unfold dict_contains in Hc. unfold dict_getitem in Hstep.
      destruct (dict_lookup (video_id r) (initial_groups l)) eqn:Hl;
        [discriminate Hc | ].
      rewrite (dict_setitem_absent _ _ _ Hl) in Hstep.
      rewrite (dict_lookup_last _ _ _ Hl) in Hstep. simpl in Hstep.
      rewrite (dict_setitem_last _ _ _ _ Hl) in Hstep.
      injection Hstep as <-. rewrite E. simpl.
      now apply Permutation_app_tail.
Qed.

(** ** Sorting *)

Section ListSortFacts.
Context {A : Type}.
Implicit Types (x : value * A) (d s : list (value * A)).

Lemma lt_raises_TypeError (a b : value) (e : exn) :
  Py.lt a b = Raise e -> e = TypeError.
Proof.
  destruct a, b; simpl; intros H; try discriminate H; now injection H.
Qed.

Lemma insert_desc_Permutation x s r :
  insert_desc x s = Ok r -> Permutation (x :: s) r.
Proof.
  revert r. induction s as [ | y s IH]; intros r; simpl.
  - intros [= <-]. apply Permutation_refl.
  - destruct (Py.lt (fst x) (fst y)) as [[ | ] | e]; simpl;
      try discriminate.
    + destruct (insert_desc x s) as [r' | e]; simpl; try discriminate.
      intros [= <-]. apply Permutation_trans with (y :: x :: s).
      * apply perm_swap.
      * apply perm_skip. now apply IH.
    + intros [= <-]. apply Permutation_refl.
Qed.

Lemma insert_desc_raises x s e :
  insert_desc x s = Raise e -> e = TypeError.
Proof.
  induction s as [ | y s IH]; simpl; [discriminate | ].
  destruct (Py.lt (fst x) (fst y)) as [[ | ] | e'] eqn:E; simpl.
  - destruct (insert_desc x s) as [r' | e']; simpl; [discriminate | ].
    intros [= <-]. now apply IH.
  - discriminate.
  - intros [= <-]. now apply lt_raises_TypeError in E.
Qed.

Lemma sort_decorated_Permutation d s :
  sort_decorated d = Ok s -> Permutation d s.
Proof.
  revert s. induction d as [ | x d IH]; intros s; simpl.
  - intros [= <-]. apply Permutation_refl.
  - destruct (sort_decorated d) as [s' | e]; simpl; [ | discriminate].
    intros H. apply insert_desc_Permutation in H.
    apply Permutation_trans with (x :: s'); [ | exact H].
    apply perm_skip. now apply IH.
Qed.

Lemma sort_decorated_raises d e :
  sort_decorated d = Raise e -> e = TypeError.
Proof.
  induction d as [ | x d IH]; simpl; [discriminate | ].
  destruct (sort_decorated d) as [s' | e']; simpl.
  - apply insert_desc_raises.
  - intros [= <-]. now apply IH.
Qed.

Lemma decorate_Ok (key : A -> res value) (l : list A) d :
  decorate key l = Ok d -> map snd d = l.
Proof.
  revert d. induction l as [ | a l IH]; intros d; simpl.
  - now intros [= <-].
  - destruct (key a) as [k | e]; simpl; [ | discriminate].
    destruct (decorate key l) as [d' | e]; simpl; [ | discriminate].
    intros [= <-]. simpl. f_equal. now apply IH.
Qed.

Lemma decorate_raises (key : A -> res value) (l : list A) e :
  decorate key l = Raise e -> exists a, In a l /\ key a = Raise e.
Proof.
  induction l as [ | a l IH]; simpl; [discriminate | ].
  destruct (key a) as [k | e'] eqn:E; simpl.
  - destruct (decorate key l) as [d' | e']; simpl; [discriminate | ].
    intros [= <-]. destruct IH as [b [Hb Hk]]; [reflexivity | ].
    exists b. split; [now right | exact Hk].
  - intros [= <-]. exists a. split; [now left | exact E].
Qed.

(** A sort that returns has rearranged its input. *)
Lemma sort_reverse_Permutation (key : A -> res value) (l l' : list A) :
  sort_reverse key l = Ok l' -> Permutation l l'.
Proof.
  unfold sort_reverse. intros H.
  apply bind_Ok_inv in H as [d [Hd H]].
  apply bind_Ok_inv in H as [s [Hs H]]. injection H as <-.
  apply decorate_Ok in Hd. rewrite <- Hd.
  apply Permutation_map. now apply sort_decorated_Permutation.
Qed.

(** A sort raises what a key raises, or the [TypeError] of a comparison. *)
Lemma sort_reverse_raises (key : A -> res value) (l : list A) e :
  sort_reverse key l = Raise e ->
  e = TypeError \/ exists a, In a l /\ key a = Raise e.
Proof.
  unfold sort_reverse. intros H.
  apply bind_Raise_inv in H as [H | [d [Hd H]]].
  - right. now apply decorate_raises.
  - left. apply bind_Raise_inv in H as [H | [s [Hs H]]].
    + now apply sort_decorated_raises in H.
    + discriminate H.
Qed.
End ListSortFacts.

Section StableSortFacts.
Context {A : Type} (key : A -> Q).
Implicit Types (x y : A) (l : list A).

Lemma insert_stable_Permutation x l :
  Permutation (x :: l) (insert_stable key x l).
Proof.
  induction l as [ | y l IH]; simpl.
  - apply Permutation_refl.
  - destruct (key_lt key x y).
    + apply Permutation_trans with (y :: x :: l);
        [apply perm_swap | now apply perm_skip].
    + apply Permutation_refl.
Qed.

Lemma sort_stable_Permutation l : Permutation l (sort_stable key l).
Proof.
  induction l as [ | x l IH]; simpl.
  - apply Permutation_refl.
  - apply Permutation_trans with (x :: sort_stable key l).
    + now apply perm_skip.
    + apply insert_stable_Permutation.
Qed.

Lemma key_lt_true x y : key_lt key x y = true -> (key x < key y)%Q.
Proof.
  unfold key_lt. intros H. apply negb_true_iff in H.
  apply Qnot_le_lt. intros Hle. apply Qle_bool_iff in Hle. congruence.
Qed.

Lemma key_lt_false x y : key_lt key x y = false -> (key y <= key x)%Q.
Proof.
  unfold key_lt. intros H. apply negb_false_iff in H.
  now apply Qle_bool_iff.
Qed.

Lemma insert_stable_sorted x l :
  non_increasing key l -> non_increasing key (insert_stable key x l).
Proof.
  unfold non_increasing.
  induction l as [ | y l IH]; intros Hs; simpl.
  - constructor; constructor.
  - inversion Hs as [ | ? ? Hs' Hall]; subst.
    destruct (key_lt key x y) eqn:E.
    + constructor; [now apply IH | ].
      apply Forall_forall. intros z Hz.
      apply (Permutation_in _ (Permutation_sym
               (insert_stable_Permutation x l))) in Hz.
      destruct Hz as [<- | Hz].
      * apply Qlt_le_weak. now apply key_lt_true.
      * rewrite Forall_forall in Hall. now apply Hall.
    + apply key_lt_false in E. constructor; [exact Hs | ].
      constructor; [exact E | ].
      apply Forall_forall. intros z Hz. rewrite Forall_forall in Hall.
      apply Qle_trans with (key y); [now apply Hall | exact E].
Qed.

Lemma sort_stable_sorted l : non_increasing key (sort_stable key l).
Proof.
  induction l as [ | x l IH]; simpl.
  - constructor.
  - now apply insert_stable_sorted.
Qed.

(** Elements with one and the same key keep their order. *)
Lemma insert_stable_filter (q : Q) x l :
  filter (has_key key q) (insert_stable key x l)
    = filter (has_key key q) (x :: l).
Proof.
  induction l as [ | y l IH]; simpl; [reflexivity | ].
  destruct (key_lt key x y) eqn:E; [ | reflexivity].
  simpl. rewrite IH. simpl.
  destruct (has_key key q x) eqn:Hx, (has_key key q y) eqn:Hy;
    try reflexivity.
  exfalso. unfold has_key in Hx, Hy.
  apply Qeq_bool_iff in Hx. apply Qeq_bool_iff in Hy.
  apply key_lt_true in E. rewrite Hx, Hy in E.
  now apply Qlt_irrefl in E.
Qed.

Lemma sort_stable_filter (q : Q) l :
  filter (has_key key q) (sort_stable key l) = filter (has_key key q) l.
Proof.
  induction l as [ | x l IH]; simpl; [reflexivity | ].
  rewrite insert_stable_filter. simpl. now rewrite IH.
Qed.

(** A list in order is left as it is. *)
Lemma sort_stable_fixpoint l :
  non_increasing key l -> sort_stable key l = l.
Proof.
  unfold non_increasing.
  induction l as [ | x l IH]; intros Hs; simpl; [reflexivity | ].
  inversion Hs as [ | ? ? Hs' Hall]; subst.
  rewrite IH by exact Hs'.
  destruct l as [ | y l]; simpl; [reflexivity | ].
  destruct (key_lt key x y) eqn:E; [ | reflexivity].
  apply key_lt_true in E. inversion Hall as [ | ? ? Hy _]; subst.
  exfalso. apply (Qlt_irrefl (key x)).
  now apply Qlt_le_trans with (key y).
Qed.

Lemma sort_stable_nonempty l : l <> [] -> sort_stable key l <> [].
Proof.
  intros Hne Hnil. pose proof (sort_stable_Permutation l) as Hp.
  rewrite Hnil in Hp. apply Permutation_sym, Permutation_nil in Hp.
  contradiction.
Qed.

(** On numeric keys the sort of the library is the stable sort. *)
Lemma insert_desc_numeric x (s : list A) :
  insert_desc (VNum (key x), x) (map (fun a => (VNum (key a), a)) s)
    = Ok (map (fun a => (VNum (key a), a)) (insert_stable key x s)).
Proof.
  induction s as [ | y s IH]; simpl; [reflexivity | ].
  fold (key_lt key x y). destruct (key_lt key x y); simpl.
  - now rewrite IH.
  - reflexivity.
Qed.

Lemma sort_decorated_numeric l :
  sort_decorated (map (fun a => (VNum (key a), a)) l)
    = Ok (map (fun a => (VNum (key a), a)) (sort_stable key l)).
Proof.
  induction l as [ | x l IH]; simpl; [reflexivity | ].
  rewrite IH. simpl. apply insert_desc_numeric.
Qed.

Lemma sort_reverse_numeric (pykey : A -> res value) l :
  (forall a, In a l -> pykey a = Ok (VNum (key a))) ->
  sort_reverse pykey l = Ok (sort_stable key l).
Proof.
  intros Hkey. unfold sort_reverse.
  assert (Hd : decorate pykey l = Ok (map (fun a => (VNum (key a), a)) l)).
  { induction l as [ | x l IH]; simpl; [reflexivity | ].
    rewrite (Hkey x) by now left. simpl.
    rewrite IH; [reflexivity | ]. intros a Ha. apply Hkey. now right. }
  rewrite Hd. simpl. rewrite sort_decorated_numeric. simpl.
  rewrite map_map. simpl. now rewrite map_id.
Qed.
End StableSortFacts.


(** ** The second loop *)

Lemma same_group_refl (a : string * group) : same_group a a.
Proof.
  repeat split. apply Permutation_refl.
Qed.

Lemma same_group_trans (a b c : string * group) :
  same_group a b -> same_group b c -> same_group a c.
Proof.
  intros [H1 [H2 H3]] [H4 [H5 H6]]. repeat split; try congruence.
  now apply Permutation_trans with (segments (snd b)).
Qed.

Lemma Forall2_same_group_refl (d : dict group) : Forall2 same_group d d.
Proof.
  induction d; constructor; [apply same_group_refl | assumption].
Qed.

Lemma Forall2_same_group_trans (d1 d2 d3 : dict group) :
  Forall2 same_group d1 d2 -> Forall2 same_group d2 d3 ->
  Forall2 same_group d1 d3.
Proof.
  intros H. revert d3. induction H as [ | a b d1 d2 Hab H IH]; intros d3 H'.
  - inversion H'. constructor.
  - inversion H' as [ | ? c ? d3' Hbc H'']; subst. constructor.
    + now apply same_group_trans with b.
    + now apply IH.
Qed.

Lemma Forall2_same_group_keys (d1 d2 : dict group) :
  Forall2 same_group d1 d2 -> dict_keys d1 = dict_keys d2.
Proof.
  induction 1 as [ | a b d1 d2 [Hk _] H IH]; simpl; [reflexivity | ].
  now f_equal.
Qed.

Lemma Forall2_same_group_flatten (d1 d2 : dict group) :
  Forall2 same_group d1 d2 -> Permutation (flatten d1) (flatten d2).
Proof.
  unfold flatten.
  induction 1 as [ | a b d1 d2 [_ [_ Hp]] H IH]; simpl.
  - apply Permutation_refl.
  - now apply Permutation_app.
Qed.

Lemma Forall2_same_group_nonempty (d1 d2 : dict group) :
  Forall2 same_group d1 d2 ->
  Forall (fun kv => segments (snd kv) <> []) d1 ->
  Forall (fun kv => segments (snd kv) <> []) d2.
Proof.
  induction 1 as [ | a b d1 d2 [_ [_ Hp]] H IH]; intros Hall.
  - constructor.
  - inversion Hall as [ | ? ? Ha Hall']; subst. constructor.
    + intros Hnil. rewrite Hnil in Hp.
      apply Permutation_sym, Permutation_nil in Hp. contradiction.
    + now apply IH.
Qed.

Lemma dict_setitem_same_group (d : dict group) (k : string) (g g' : group) :
  dict_lookup k d = Some g ->
  same_group (k, g) (k, g') ->
  Forall2 same_group d (dict_setitem k g' d).
Proof.
  induction d as [ | [k0 g0] d IH]; simpl; [discriminate | ].
  destruct (String.eqb_spec k k0) as [-> | Hne].
  - intros [= ->] Hsame. constructor;
      [exact Hsame | apply Forall2_same_group_refl].
  - intros Hl Hsame. constructor; [apply same_group_refl | now apply IH].
Qed.

(** Whatever the types of the similarities, a second loop that returns has
    rearranged the segments of each group and nothing else; it raises
    nothing but the [TypeError] of a comparison. *)
Lemma sort_segments_loop_cases (keys : list string) (vg : dict group) :
  (forall k, In k keys -> In k (dict_keys vg)) ->
  sort_segments_loop keys vg = Raise TypeError \/
  exists vg', sort_segments_loop keys vg = Ok vg' /\ Forall2 same_group vg vg'.
Proof.
  revert vg. induction keys as [ | k keys IH]; intros vg Hkeys; simpl.
  - right. exists vg. split; [reflexivity | apply Forall2_same_group_refl].
  - unfold dict_getitem.
    destruct (dict_lookup k vg) as [g | ] eqn:Hl.
    + simpl.
      destruct (sort_reverse similarity_key (segments g)) as [s | e] eqn:Hs;
        simpl.
      * assert (Hsame : Forall2 same_group vg
                  (dict_setitem k
                     {| video_info := video_info g; segments := s |} vg)).
        { apply dict_setitem_same_group with g; [exact Hl | ].
          repeat split. simpl. now apply sort_reverse_Permutation in Hs. }
        destruct (IH (dict_setitem k
                        {| video_info := video_info g; segments := s |} vg))
          as [Hraise | [vg' [Hok Hrel]]].
        -- intros k' Hk'.
           rewrite <- (Forall2_same_group_keys _ _ Hsame).
           apply Hkeys. now right.
        -- now left.
        -- right. exists vg'. split; [exact Hok | ].
           now apply Forall2_same_group_trans with
             (dict_setitem k
                {| video_info := video_info g; segments := s |} vg).
      * left. apply sort_reverse_raises in Hs as [-> | [a [_ Ha]]];
          [reflexivity | discriminate Ha].
    + exfalso. apply dict_lookup_None in Hl. apply Hl, Hkeys. now left.
Qed.

Lemma similarity_key_numeric (r : row) :
  numeric_similarity r = true ->
  similarity_key r = Ok (VNum (similarity_or_0 r)).
Proof.
  unfold numeric_similarity, similarity_key, similarity_or_0, Py.or_.
  destruct (similarity r) as [ | q | s | t]; simpl; try discriminate.
  - reflexivity.
  - intros _. now destruct (Qeq_bool q 0).
Qed.

(** On numeric similarities the second loop returns, with the segments of
    each group in stable descending order. *)
Lemma sort_segments_loop_numeric (done todo : dict group) :
  NoDup (dict_keys (done ++ todo)) ->
  Forall numeric_group todo ->
  sort_segments_loop (dict_keys todo) (done ++ todo)
    = Ok (done ++ map sort_group_segments todo).
Proof.
  revert done. induction todo as [ | [k g] todo IH]; intros done Hnd Hnum.
  - reflexivity.
  - simpl. inversion Hnum as [ | ? ? Hg Htodo]; subst.
    assert (Hnotin : ~ In k (dict_keys done)).
    { unfold dict_keys in *. rewrite map_app in Hnd. simpl in Hnd.
      apply NoDup_remove_2 in Hnd. intros Hin. apply Hnd, in_or_app.
      now left. }
    unfold dict_getitem. rewrite dict_lookup_middle by exact Hnotin. simpl.
    rewrite (sort_reverse_numeric similarity_or_0).
    + simpl. rewrite dict_setitem_middle by exact Hnotin.
      change (done ++ (k, {| video_info := video_info g;
                             segments := sort_stable similarity_or_0
                                           (segments g) |}) :: todo)
        with (done ++ [sort_group_segments (k, g)] ++ todo).
      rewrite app_assoc. rewrite IH.
      * now rewrite <- app_assoc.
      * rewrite <- app_assoc. unfold dict_keys in *.
        rewrite !map_app in *. exact Hnd.
      * exact Htodo.
    + intros r Hr. apply similarity_key_numeric. now apply Hg.
Qed.

(** ** The whole function *)

Lemma forallb_numeric_In (results : list row) (r : row) :
  forallb numeric_similarity results = true -> In r results ->
  numeric_similarity r = true.
Proof.
  intros H Hr. rewrite forallb_forall in H. now apply H.
Qed.

Lemma best_segment_key_nonempty (kv : string * group) (e : exn) :
  segments (snd kv) <> [] -> best_segment_key kv <> Raise e.
Proof.
  unfold best_segment_key. destruct (segments (snd kv)); simpl.
  - intros H. now contradiction H.
  - discriminate.
Qed.

(** Whatever the input, the function raises the [TypeError] of a comparison
    or returns the groups of the first loop, each with its segments
    rearranged, in some order. *)
Lemma group_results_by_video_cases (results : list row) :
  group_results_by_video results = Raise TypeError \/
  exists vg g,
    group_results_by_video results = Ok g /\
    Forall2 same_group (initial_groups results) vg /\
    Permutation vg g.
Proof.
  unfold group_results_by_video. rewrite group_loop_initial. simpl.
  destruct (sort_segments_loop_cases
              (dict_keys (initial_groups results)) (initial_groups results))
    as [Hraise | [vg [Hok Hrel]]].
  - tauto.
  - left. now rewrite Hraise.
  - rewrite Hok. simpl.
    destruct (sort_reverse best_segment_key vg) as [s | e] eqn:Hs; simpl.
    + right. exists vg, s.
      pose proof (sort_reverse_Permutation _ _ _ Hs) as Hperm.
      rewrite dict_of_items_NoDup.
      * repeat split; assumption.
      * apply (Permutation_NoDup (Permutation_map fst Hperm)).
        change (map fst vg) with (dict_keys vg).
        rewrite <- (Forall2_same_group_keys _ _ Hrel), initial_groups_keys.
        apply first_seen_NoDup.
    + left. apply sort_reverse_raises in Hs as [-> | [a [Ha Hkey]]];
        [reflexivity | ].
      exfalso. revert Hkey. apply best_segment_key_nonempty.
      pose proof (Forall2_same_group_nonempty _ _ Hrel
                    (initial_groups_nonempty results)) as Hne.
      rewrite Forall_forall in Hne. now apply Hne.
Qed.

Lemma initial_groups_numeric (results : list row) :
  forallb numeric_similarity results = true ->
  Forall numeric_group (initial_groups results).
Proof.
  intros H. apply Forall_forall. intros kv Hkv r Hr.
  apply initial_groups_In in Hkv as [_ Heq]. rewrite Heq in Hr. simpl in Hr.
  apply filter_In in Hr as [Hr _]. now apply forallb_numeric_In with results.
Qed.

Lemma best_segment_key_numeric (kv : string * group) :
  segments (snd kv) <> [] -> numeric_group kv ->
  best_segment_key kv = Ok (VNum (top_similarity (snd kv))).
Proof.
  unfold best_segment_key, top_similarity, numeric_group.
  destruct (segments (snd kv)) as [ | s l]; intros Hne Hnum.
  - now contradiction Hne.
  - simpl. apply (similarity_key_numeric s). apply Hnum. now left.
Qed.

(** On numeric similarities the function returns, and [sorted_groups] is
    what it returns. *)
Lemma group_results_by_video_numeric (results : list row) :
  forallb numeric_similarity results = true ->
  group_results_by_video results = Ok (sorted_groups results).
Proof.
  intros Hnum. unfold group_results_by_video.
  rewrite group_loop_initial. simpl.
  pose proof (sort_segments_loop_numeric [] (initial_groups results)) as H2.
  simpl in H2. rewrite H2; clear H2.
  - simpl.
    rewrite (sort_reverse_numeric (fun kv => top_similarity (snd kv))).
    + simpl. fold (sorted_groups results). f_equal.
      apply dict_of_items_NoDup.
      apply (Permutation_NoDup
               (Permutation_map fst (sort_stable_Permutation _ _))).
      rewrite map_map. simpl.
      change (map (fun x => fst x) (initial_groups results))
        with (dict_keys (initial_groups results)).
      rewrite initial_groups_keys. apply first_seen_NoDup.
    + intros a Ha. apply in_map_iff in Ha as [kv [<- Hkv]].
      pose proof (initial_groups_numeric results Hnum) as Hall.
      rewrite Forall_forall in Hall. specialize (Hall kv Hkv).
      pose proof (initial_groups_nonempty results) as Hne.
      rewrite Forall_forall in Hne. specialize (Hne kv Hkv).
      apply best_segment_key_numeric.
      * simpl. now apply sort_stable_nonempty.
      * intros r Hr. simpl in Hr. apply Hall.
        now apply (Permutation_in _ (Permutation_sym
                     (sort_stable_Permutation similarity_or_0 _))).
  - rewrite initial_groups_keys. apply first_seen_NoDup.
  - now apply initial_groups_numeric.
Qed.

Lemma Forall2_same_group_In (d1 d2 : dict group) (a : string * group) :
  Forall2 same_group d1 d2 -> In a d1 ->
  exists b, In b d2 /\ same_group a b.
Proof.
  induction 1 as [ | x y d1 d2 Hxy H IH]; intros Hin.
  - contradiction.
  - destruct Hin as [<- | Hin].
    + exists y. split; [now left | exact Hxy].
    + destruct (IH Hin) as [b [Hb Hab]]. exists b. split; [now right | exact Hab].
Qed.

(** What every returned result has, whatever the types of the
    similarities: distinct video ids, no empty group, the matches of the
    input each once, and for each video the information of its first
    match. *)
Lemma group_results_by_video_Ok (results : list row) (g : dict group) :
  group_results_by_video results = Ok g ->
  NoDup (dict_keys g) /\
  Forall (fun kv => segments (snd kv) <> []) g /\
  Permutation (flatten g) results /\
  (forall vid r0, first_match vid results = Some r0 ->
     exists grp, dict_lookup vid g = Some grp /\ video_info grp = metadata r0).
Proof.
  intros Hg.
  destruct (group_results_by_video_cases results)
    as [Hraise | [vg [g' [Hok [Hrel Hperm]]]]]; [congruence | ].
  rewrite Hg in Hok. injection Hok as <-.
  assert (Hnd : NoDup (dict_keys g)).
  { apply (Permutation_NoDup (Permutation_map fst Hperm)).
    change (map fst vg) with (dict_keys vg).
    rewrite <- (Forall2_same_group_keys _ _ Hrel), initial_groups_keys.
    apply first_seen_NoDup. }
  split; [exact Hnd | ]. split; [ | split].
  - apply (Permutation_Forall Hperm).
    apply (Forall2_same_group_nonempty _ _ Hrel).
    apply initial_groups_nonempty.
  - apply Permutation_trans with (flatten vg).
    + unfold flatten. apply Permutation_flat_map. now apply Permutation_sym.
    + apply Permutation_trans with (flatten (initial_groups results)).
      * apply Permutation_sym. now apply Forall2_same_group_flatten.
      * apply flatten_initial_groups.
  - intros vid r0 Hfirst.
    assert (Hin : In vid (map video_id results)).
    { destruct (in_dec string_dec vid (map video_id results)) as [H | H];
        [exact H | ].
      apply first_match_None in H. congruence. }
    assert (Hinit : In (vid, group_of results vid) (initial_groups results)).
    { apply initial_groups_In. simpl. now split. }
    destruct (Forall2_same_group_In _ _ _ Hrel Hinit)
      as [[k grp] [Hb [Hk [Hinfo _]]]].
    simpl in Hk, Hinfo. subst k. exists grp. split.
    + apply dict_lookup_NoDup; [exact Hnd | ].
      now apply (Permutation_in _ Hperm).
    + rewrite <- Hinfo. unfold group_of. simpl. now rewrite Hfirst.
Qed.

(** C3.  On numeric or missing similarities the function returns, and the
    segments of the returned groups are the input, each match once; the
    empty input gives the empty dictionary. *)
Theorem grouping_completeness (results : list row) :
  forallb numeric_similarity results = true ->
  exists g,
    group_results_by_video results = Ok g /\
    Permutation (flatten g) results /\
    (results = [] -> g = []).
Proof.
  intros Hnum. exists (sorted_groups results).
  pose proof (group_results_by_video_numeric results Hnum) as Hok.
  destruct (group_results_by_video_Ok _ _ Hok) as [_ [_ [Hperm _]]].
  repeat split; [exact Hok | exact Hperm | ].
  intros ->. reflexivity.
Qed.

Lemma grouping_completeness_witness :
  exists g,
    group_results_by_video
      [sample_row "v1" "talk" (VStr "en") (VNum 0.6);
       sample_row "v2" "news" (VStr "en") (VNum 0.8);
       sample_row "v1" "talk" (VStr "en") VNone] = Ok g /\
    Permutation (flatten g)
      [sample_row "v1" "talk" (VStr "en") (VNum 0.6);
       sample_row "v2" "news" (VStr "en") (VNum 0.8);
       sample_row "v1" "talk" (VStr "en") VNone] /\
    ([sample_row "v1" "talk" (VStr "en") (VNum 0.6);
      sample_row "v2" "news" (VStr "en") (VNum 0.8);
      sample_row "v1" "talk" (VStr "en") VNone] = [] -> g = []).
Proof.
  apply (grouping_completeness
           [sample_row "v1" "talk" (VStr "en") (VNum 0.6);
            sample_row "v2" "news" (VStr "en") (VNum 0.8);
            sample_row "v1" "talk" (VStr "en") VNone]).
  reflexivity.
Defined.

(** On numeric or missing similarities, the video information of the group
    of a video id consists of that id and of the title, the description,
    the publish time, the duration and the four counts of the first match
    of the input with that id, whatever later matches carry.  So the
    metadata of the group is the metadata of that first match in every
    attribute but the transcription language, which the group does not
    have. *)
Theorem metadata_of_first_match (results : list row) (vid : string)
    (r0 : row) :
  forallb numeric_similarity results = true ->
  first_match vid results = Some r0 ->
  exists g grp,
    group_results_by_video results = Ok g /\
    dict_lookup vid g = Some grp /\
    video_info grp = metadata r0 /\
    without_language (group_metadata grp)
      = without_language (video_metadata r0) /\
    dict_get "transcription_language" (group_metadata grp) = VNone.
Proof.
  intros Hnum Hfirst.
  pose proof (group_results_by_video_numeric results Hnum) as Hok.
  destruct (group_results_by_video_Ok _ _ Hok) as [_ [_ [_ Hmeta]]].
  destruct (Hmeta vid r0 Hfirst) as [grp [Hl Hinfo]].
  exists (sorted_groups results), grp.
  split; [exact Hok | ]. split; [exact Hl | ]. split; [exact Hinfo | ].
  unfold group_metadata. rewrite Hinfo. split; reflexivity.
Qed.

Lemma metadata_of_first_match_witness :
  exists g grp,
    group_results_by_video
      [sample_row "v1" "first title" (VStr "en") (VNum 0.5);
       sample_row "v1" "second title" (VStr "en") (VNum 0.9)] = Ok g /\
    dict_lookup "v1" g = Some grp /\
    video_info grp
      = metadata (sample_row "v1" "first title" (VStr "en") (VNum 0.5)) /\
    without_language (group_metadata grp)
      = without_language
          (video_metadata
             (sample_row "v1" "first title" (VStr "en") (VNum 0.5))) /\
    dict_get "transcription_language" (group_metadata grp) = VNone.
Proof.
  apply (metadata_of_first_match
           [sample_row "v1" "first title" (VStr "en") (VNum 0.5);
            sample_row "v1" "second title" (VStr "en") (VNum 0.9)]
           "v1"
           (sample_row "v1" "first title" (VStr "en") (VNum 0.5)));
    reflexivity.
Defined.

(** C4.  The claim fails on a match that carries a transcription language.
    Of two matches of one video, the first in English with the lower
    similarity, the group takes the title, the description, the publish
    time, the duration and the four counts of the first one, but no
    language: read from the group it is [None], so the metadata of the
    group is not the metadata that the first match carries. *)
Theorem group_metadata_drops_language :
  let first := sample_row "v1" "first title" (VStr "en") (VNum 0.5) in
  let second := sample_row "v1" "second title" (VStr "fr") (VNum 0.9) in
  exists grp,
    group_results_by_video [first; second] = Ok [("v1", grp)] /\
    segments grp = [second; first] /\
    without_language (group_metadata grp)
      = without_language (video_metadata first) /\
    dict_get "transcription_language" (video_metadata first) = VStr "en" /\
    dict_get "transcription_language" (group_metadata grp) = VNone /\
    group_metadata grp <> video_metadata first.
Proof.
  intros first second. eexists.
  split; [vm_compute; reflexivity | ].
  split; [reflexivity | ]. split; [reflexivity | ].
  split; [reflexivity | ]. split; [reflexivity | ].
  intros H. apply (f_equal (dict_get "transcription_language")) in H.
  vm_compute in H. discriminate H.
Qed.

(** C10.  Whatever the input, the function never raises [IndexError] at
    [segments[0]]: it returns or raises the [TypeError] of a comparison, and
    in every group that it returns the first segment exists, so the
    renderers' [segments[0]] returns it. *)
Theorem groups_have_a_best_segment (results : list row) :
  match group_results_by_video results with
  | Ok g =>
      Forall (fun kv =>
                segments (snd kv) <> [] /\
                exists s, best_segment (snd kv) = Ok s) g
  | Raise e => e = TypeError
  end.
Proof.
  destruct (group_results_by_video results) as [g | e] eqn:Hg.
  - destruct (group_results_by_video_Ok _ _ Hg) as [_ [Hne _]].
    apply (Forall_impl _ (P := fun kv => segments (snd kv) <> []));
      [ | exact Hne].
    intros kv Hkv. split; [exact Hkv | ].
    unfold best_segment. destruct (segments (snd kv)) as [ | s l].
    + now contradiction Hkv.
    + now exists s.
  - destruct (group_results_by_video_cases results)
      as [Hraise | [vg [g' [Hok _]]]]; congruence.
Qed.

(** ** Order of the result *)

Section Before.
Context {A : Type}.
Implicit Types (a b : A) (l : list A).

Lemma before_cons a b l (x : A) : before a b l -> before a b (x :: l).
Proof.
  intros [l1 [l2 [l3 ->]]]. now exists (x :: l1), l2, l3.
Qed.

Lemma before_head a b l : In b l -> before a b (a :: l).
Proof.
  intros Hin. destruct (in_split _ _ Hin) as [m1 [m2 ->]].
  now exists [], m1, m2.
Qed.

Lemma before_nth_error (i j : nat) a b l :
  (i < j)%nat -> nth_error l i = Some a -> nth_error l j = Some b ->
  before a b l.
Proof.
  revert i j. induction l as [ | x l IH]; intros i j Hij Hi Hj.
  - destruct i; discriminate Hi.
  - destruct j as [ | j]; [lia | ]. simpl in Hj. destruct i as [ | i].
    + simpl in Hi. injection Hi as ->. apply before_head.
      now apply nth_error_In with j.
    + simpl in Hi. apply before_cons. apply (IH i j); [lia | assumption ..].
Qed.

Lemma before_filter (p : A -> bool) a b l :
  before a b l -> p a = true -> p b = true -> before a b (filter p l).
Proof.
  intros [l1 [l2 [l3 ->]]] Ha Hb.
  exists (filter p l1), (filter p l2), (filter p l3).
  rewrite filter_app. simpl. rewrite Ha, filter_app. simpl. now rewrite Hb.
Qed.

Lemma before_filter_inv (p : A -> bool) a b l :
  before a b (filter p l) -> before a b l.
Proof.
  induction l as [ | x l IH]; simpl.
  - intros [l1 [l2 [l3 H]]]. now destruct l1.
  - destruct (p x).
    + intros [l1 [l2 [l3 H]]]. destruct l1 as [ | y l1].
      * simpl in H. injection H as -> H. apply before_head.
        assert (Hin : In b (filter p l)).
        { rewrite H. apply in_or_app. right. now left. }
        now apply filter_In in Hin as [Hin _].
      * simpl in H. injection H as -> H. apply before_cons, IH.
        now exists l1, l2, l3.
    + intros H. now apply before_cons, IH.
Qed.

End Before.

Lemma before_map {A B : Type} (f : A -> B) (a b : A) (l : list A) :
  before a b l -> before (f a) (f b) (map f l).
Proof.
  intros [l1 [l2 [l3 ->]]]. exists (map f l1), (map f l2), (map f l3).
  rewrite map_app. simpl. now rewrite map_app.
Qed.

(** The order of [first_seen] is the order of the first occurrences. *)
Lemma before_first_seen (x y : string) (results : list row) :
  before x y (first_seen (map video_id results)) ->
  (first_pos x results < first_pos y results)%nat.
Proof.
  induction results as [ | r l IH]; simpl.
  - intros [l1 [l2 [l3 H]]]. now destruct l1.
  - intros Hb. pose proof Hb as [l1 [l2 [l3 H]]].
    assert (Hy : y <> video_id r).
    { assert (Hin : In y (filter (fun y0 => negb (String.eqb y0 (video_id r)))
                            (first_seen (map video_id l)))).
      { destruct l1 as [ | z l1]; simpl in H; injection H as _ H; rewrite H.
        - apply in_or_app. right. now left.
        - apply in_or_app. right. right. apply in_or_app. right. now left. }
      apply filter_In in Hin as [_ Hin]. apply negb_true_iff in Hin.
      now apply String.eqb_neq. }
    assert (Ey : has_video_id y r = false).
    { unfold has_video_id. apply String.eqb_neq. congruence. }
    rewrite Ey. destruct l1 as [ | z l1].
    + simpl in H. injection H as Hx _. subst x.
      unfold has_video_id. rewrite String.eqb_refl. lia.
    + simpl in H. injection H as Hz H. subst z.
      assert (Hb' : before x y (first_seen (map video_id l))).
      { apply before_filter_inv with
          (p := fun y0 => negb (String.eqb y0 (video_id r))).
        now exists l1, l2, l3. }
      assert (Hx : In x (filter (fun y0 => negb (String.eqb y0 (video_id r)))
                           (first_seen (map video_id l)))).
      { rewrite H. apply in_or_app. right. now left. }
      apply filter_In in Hx as [_ Hx]. apply negb_true_iff in Hx.
      unfold has_video_id. rewrite String.eqb_sym, Hx.
      apply IH in Hb'. lia.
Qed.

Lemma sorted_groups_In (results : list row) (vid : string) (grp : group) :
  In (vid, grp) (sorted_groups results) ->
  In vid (map video_id results) /\
  grp = {| video_info := video_info (group_of results vid);
           segments := sort_stable similarity_or_0
                         (filter (has_video_id vid) results) |}.
Proof.
  unfold sorted_groups. intros Hin.
  apply (Permutation_in _ (Permutation_sym (sort_stable_Permutation _ _)))
    in Hin.
  apply in_map_iff in Hin as [kv [Heq Hkv]].
  apply initial_groups_In in Hkv as [Hid Hsnd].
  unfold sort_group_segments in Heq. rewrite Hsnd in Heq.
  injection Heq as <- <-. split; [exact Hid | reflexivity].
Qed.

Lemma sorted_groups_keys (results : list row) :
  map fst (map sort_group_segments (initial_groups results))
    = first_seen (map video_id results).
Proof.
  rewrite map_map. simpl. apply initial_groups_keys.
Qed.

(** C2.  On numeric or missing similarities the function returns groups in
    which (1) the similarities, a missing one read as 0, never increase
    along the segments, (2) the segments with one and the same similarity
    stand in the order of the input, (3) the similarities of the first
    segments never increase along the groups, and (4) of two groups whose
    first segments tie, the one whose video id occurs first in the input
    comes first. *)
Theorem group_ordering (results : list row) :
  forallb numeric_similarity results = true ->
  exists g,
    group_results_by_video results = Ok g /\
    (forall vid grp, In (vid, grp) g ->
       non_increasing similarity_or_0 (segments grp) /\
       forall q,
         filter (has_key similarity_or_0 q) (segments grp)
           = filter (has_key similarity_or_0 q)
               (filter (has_video_id vid) results)) /\
    non_increasing (fun kv => top_similarity (snd kv)) g /\
    (forall i j a b,
       (i < j)%nat -> nth_error g i = Some a -> nth_error g j = Some b ->
       (top_similarity (snd a) == top_similarity (snd b))%Q ->
       (first_pos (fst a) results < first_pos (fst b) results)%nat).
Proof.
  intros Hnum. exists (sorted_groups results).
  split; [now apply group_results_by_video_numeric | ].
  split; [ | split].
  - intros vid grp Hin. apply sorted_groups_In in Hin as [_ ->]. simpl.
    split; [apply sort_stable_sorted | ].
    intros q. apply sort_stable_filter.
  - apply sort_stable_sorted.
  - intros i j a b Hij Ha Hb Htie.
    apply before_first_seen. rewrite <- sorted_groups_keys.
    apply before_map.
    set (K := fun kv : string * group => top_similarity (snd kv)).
    apply before_filter_inv with (p := has_key K (K a)).
    rewrite <- (sort_stable_filter K).
    apply before_filter.
    + now apply before_nth_error with i j.
    + unfold has_key. apply Qeq_bool_iff. reflexivity.
    + unfold has_key. apply Qeq_bool_iff. unfold K. now symmetry.
Qed.

Lemma group_ordering_witness :
  exists g,
    group_results_by_video sample_results = Ok g /\
    non_increasing (fun kv => top_similarity (snd kv)) g /\
    map fst g = ["v2"; "v3"; "v1"].
Proof.
  destruct (group_ordering sample_results) as [g [Hg [_ [Hsorted _]]]].
  - reflexivity.
  - exists g. split; [exact Hg | ]. split; [exact Hsorted | ].
    vm_compute in Hg. injection Hg as <-. reflexivity.
Defined.

(** ** Grouping again *)

Lemma filter_neq_id (k : string) (l : list string) :
  ~ In k l -> filter (fun y => negb (String.eqb y k)) l = l.
Proof.
  induction l as [ | x l IH]; simpl; [reflexivity | ].
  intros H. destruct (String.eqb_spec x k) as [-> | Hne]; simpl.
  - exfalso. apply H. now left.
  - f_equal. apply IH. tauto.
Qed.

(** A block of matches of one video, followed by matches of other videos. *)
Lemma first_seen_block (k : string) (segs rest : list row) :
  segs <> [] ->
  (forall s, In s segs -> video_id s = k) ->
  ~ In k (map video_id rest) ->
  first_seen (map video_id (segs ++ rest))
    = k :: first_seen (map video_id rest).
Proof.
  intros Hne Hid Hk. induction segs as [ | s segs IH]; [now contradiction Hne | ].
  simpl. rewrite (Hid s) by now left. f_equal.
  destruct segs as [ | s' segs].
  - simpl. apply filter_neq_id. now rewrite first_seen_In.
  - rewrite IH.
    + simpl. rewrite String.eqb_refl. simpl. apply filter_neq_id.
      now rewrite first_seen_In.
    + discriminate.
    + intros x Hx. apply Hid. now right.
Qed.

Lemma filter_video_id_all (k : string) (segs : list row) :
  (forall s, In s segs -> video_id s = k) ->
  filter (has_video_id k) segs = segs.
Proof.
  induction segs as [ | s segs IH]; intros Hid; simpl; [reflexivity | ].
  unfold has_video_id at 1. rewrite (Hid s) by now left.
  rewrite String.eqb_refl. f_equal. apply IH. intros x Hx. apply Hid.
  now right.
Qed.

Lemma group_of_block_same (k : string) (segs rest : list row) (grp : group) :
  segs = segments grp ->
  segs <> [] ->
  (forall s, In s segs -> video_id s = k /\ metadata s = video_info grp) ->
  ~ In k (map video_id rest) ->
  group_of (segs ++ rest) k = grp.
Proof.
  intros Hsegs Hne Hall Hk. unfold group_of.
  rewrite filter_app, (filter_video_id_nil k rest Hk), app_nil_r.
  rewrite filter_video_id_all by (intros s Hs; now apply Hall).
  destruct segs as [ | s segs]; [now contradiction Hne | ].
  unfold first_match. simpl. unfold has_video_id at 1.
  destruct (Hall s) as [Hid Hmeta]; [now left | ].
  rewrite Hid, String.eqb_refl, Hmeta, Hsegs. now destruct grp.
Qed.

Lemma group_of_block_other (k v : string) (segs rest : list row) :
  (forall s, In s segs -> video_id s = k) ->
  v <> k ->
  group_of (segs ++ rest) v = group_of rest v.
Proof.
  intros Hid Hne. unfold group_of, first_match.
  induction segs as [ | s segs IH]; simpl; [reflexivity | ].
  unfold has_video_id at 1 3. rewrite (Hid s) by now left.
  destruct (String.eqb_spec k v) as [-> | _]; [now contradiction Hne | ].
  apply IH. intros x Hx. apply Hid. now right.
Qed.

(** A dictionary whose groups are non-empty blocks of their own video,
    each carrying the information of its segments, is what the first loop
    builds from its flattening. *)
Lemma initial_groups_flatten (d : dict group) :
  NoDup (dict_keys d) ->
  (forall k grp, In (k, grp) d ->
     segments grp <> [] /\
     forall s, In s (segments grp) ->
       video_id s = k /\ metadata s = video_info grp) ->
  initial_groups (flatten d) = d.
Proof.
  induction d as [ | [k grp] d IH]; intros Hnd Hall; [reflexivity | ].
  simpl in Hnd. inversion Hnd as [ | ? ? Hk Hnd']; subst.
  destruct (Hall k grp) as [Hne Hsegs]; [now left | ].
  assert (Hrest : forall s, In s (flatten d) -> In (video_id s) (dict_keys d)).
  { intros s Hs. unfold flatten in Hs. apply in_flat_map in Hs
      as [[k' g'] [Hkv Hs]]. simpl in Hs.
    destruct (Hall k' g') as [_ Hs']; [now right | ].
    destruct (Hs' s Hs) as [-> _]. unfold dict_keys.
    change k' with (fst (k', g')). now apply in_map. }
  assert (Hk' : ~ In k (map video_id (flatten d))).
  { intros Hin. apply in_map_iff in Hin as [s [Hid Hs]]. apply Hk.
    rewrite <- Hid. now apply Hrest. }
  unfold flatten at 1. simpl. fold (flatten d). unfold initial_groups.
  rewrite (first_seen_block k); try assumption;
    [ | intros s Hs; now apply Hsegs].
  simpl. f_equal.
  - f_equal. now apply group_of_block_same.
  - rewrite <- IH at 2.
    + unfold initial_groups. apply map_ext_in. intros v Hv. f_equal.
      apply (group_of_block_other k); [intros s Hs; now apply Hsegs | ].
      intros ->. apply Hk'. now apply first_seen_In.
    + exact Hnd'.
    + intros k' g' Hin. apply Hall. now right.
Qed.

Lemma first_match_Some (vid : string) (results : list row) (r0 : row) :
  first_match vid results = Some r0 -> In r0 results /\ video_id r0 = vid.
Proof.
  unfold first_match. intros H. apply find_some in H as [Hin Hid].
  split; [exact Hin | ]. now apply String.eqb_eq.
Qed.

Lemma sorted_groups_blocks (results : list row) :
  consistent_metadata results ->
  forall k grp, In (k, grp) (sorted_groups results) ->
    segments grp <> [] /\
    forall s, In s (segments grp) ->
      video_id s = k /\ metadata s = video_info grp.
Proof.
  intros Hcons k grp Hin. apply sorted_groups_In in Hin as [Hid ->]. simpl.
  split.
  - apply sort_stable_nonempty. now apply filter_video_id_nonempty.
  - intros s Hs.
    apply (Permutation_in _ (Permutation_sym (sort_stable_Permutation _ _)))
      in Hs.
    apply filter_In in Hs as [Hs Hsid]. apply String.eqb_eq in Hsid.
    split; [exact Hsid | ].
    destruct (first_match k results) as [r0 | ] eqn:Hfirst.
    + apply first_match_Some in Hfirst as [Hr0 Hr0id].
      apply Hcons; congruence.
    + apply first_match_None in Hfirst. contradiction.
Qed.

Lemma sorted_groups_NoDup (results : list row) :
  NoDup (dict_keys (sorted_groups results)).
Proof.
  unfold dict_keys, sorted_groups.
  apply (Permutation_NoDup
           (Permutation_map fst (sort_stable_Permutation _ _))).
  rewrite sorted_groups_keys. apply first_seen_NoDup.
Qed.

Lemma sort_group_segments_fixpoint (d : dict group) :
  (forall kv, In kv d -> non_increasing similarity_or_0 (segments (snd kv))) ->
  map sort_group_segments d = d.
Proof.
  intros H. rewrite <- (map_id d) at 2. apply map_ext_in.
  intros [k grp] Hin. unfold sort_group_segments. simpl.
  rewrite sort_stable_fixpoint by apply (H _ Hin). now destruct grp.
Qed.

(** Grouping the flattened result of a grouping changes nothing, when the
    matches of each video agree on the video-level fields. *)
Lemma sorted_groups_idempotent (results : list row) :
  consistent_metadata results ->
  sorted_groups (flatten (sorted_groups results)) = sorted_groups results.
Proof.
  intros Hcons. unfold sorted_groups at 1.
  rewrite initial_groups_flatten.
  - rewrite sort_group_segments_fixpoint.
    + apply sort_stable_fixpoint. apply sort_stable_sorted.
    + intros [k grp] Hin. apply sorted_groups_In in Hin as [_ ->]. simpl.
      apply sort_stable_sorted.
  - apply sorted_groups_NoDup.
  - now apply sorted_groups_blocks.
Qed.

Lemma flatten_numeric (results : list row) (g : dict group) :
  forallb numeric_similarity results = true ->
  Permutation (flatten g) results ->
  forallb numeric_similarity (flatten g) = true.
Proof.
  intros Hnum Hperm. apply forallb_forall. intros r Hr.
  apply forallb_numeric_In with results; [exact Hnum | ].
  now apply (Permutation_in _ Hperm).
Qed.

Lemma group_of_block_best (k : string) (s : row) (segs rest : list row) :
  (forall x, In x (s :: segs) -> video_id x = k) ->
  ~ In k (map video_id rest) ->
  group_of ((s :: segs) ++ rest) k
    = {| video_info := metadata s; segments := s :: segs |}.
Proof.
  intros Hid Hk. unfold group_of.
  rewrite filter_app, (filter_video_id_nil k rest Hk), app_nil_r.
  rewrite filter_video_id_all by exact Hid.
  unfold first_match. simpl. unfold has_video_id.
  rewrite (Hid s) by now left. now rewrite String.eqb_refl.
Qed.

(** A dictionary whose groups are non-empty blocks of their own video:
    from its flattening the first loop builds the same groups in the same
    order, each with the video information of its first segment. *)
Lemma initial_groups_flatten_best (d : dict group) :
  NoDup (dict_keys d) ->
  (forall k grp, In (k, grp) d ->
     segments grp <> [] /\
     forall s, In s (segments grp) -> video_id s = k) ->
  initial_groups (flatten d) = map with_best_metadata d.
Proof.
  induction d as [ | [k grp] d IH]; intros Hnd Hall; [reflexivity | ].
  simpl in Hnd. inversion Hnd as [ | ? ? Hk Hnd']; subst.
  destruct (Hall k grp) as [Hne Hsegs]; [now left | ].
  assert (Hrest : forall s, In s (flatten d) -> In (video_id s) (dict_keys d)).
  { intros s Hs. unfold flatten in Hs. apply in_flat_map in Hs
      as [[k' g'] [Hkv Hs]]. simpl in Hs.
    destruct (Hall k' g') as [_ Hs']; [now right | ].
    rewrite (Hs' s Hs). unfold dict_keys.
    change k' with (fst (k', g')). now apply in_map. }
  assert (Hk' : ~ In k (map video_id (flatten d))).
  { intros Hin. apply in_map_iff in Hin as [s [Hid Hs]]. apply Hk.
    rewrite <- Hid. now apply Hrest. }
  unfold flatten at 1. simpl. fold (flatten d). unfold initial_groups.
  rewrite (first_seen_block k); try assumption.
  simpl. f_equal.
  - unfold with_best_metadata. simpl. f_equal.
    destruct (segments grp) as [ | s segs]; [now contradiction Hne | ].
    now apply group_of_block_best.
  - rewrite <- IH.
    + unfold initial_groups. apply map_ext_in. intros v Hv. f_equal.
      apply (group_of_block_other k); [exact Hsegs | ].
      intros ->. apply Hk'. now apply first_seen_In.
    + exact Hnd'.
    + intros k' g' Hin. apply Hall. now right.
Qed.

Lemma sorted_groups_own_video (results : list row) :
  forall k grp, In (k, grp) (sorted_groups results) ->
    segments grp <> [] /\
    forall s, In s (segments grp) -> video_id s = k.
Proof.
  intros k grp Hin. apply sorted_groups_In in Hin as [Hid ->]. simpl.
  split.
  - apply sort_stable_nonempty. now apply filter_video_id_nonempty.
  - intros s Hs.
    apply (Permutation_in _ (Permutation_sym (sort_stable_Permutation _ _)))
      in Hs.
    apply filter_In in Hs as [_ Hsid]. now apply String.eqb_eq in Hsid.
Qed.

Lemma non_increasing_map {A : Type} (key : A -> Q) (f : A -> A)
    (l : list A) :
  (forall x, key (f x) = key x) ->
  non_increasing key l -> non_increasing key (map f l).
Proof.
  intros Hkey. unfold non_increasing.
  induction 1 as [ | x l Hsorted IH Hall]; simpl; constructor.
  - exact IH.
  - rewrite Forall_forall in *. intros y Hy.
    apply in_map_iff in Hy as [y' [<- Hy']]. rewrite !Hkey. now apply Hall.
Qed.

(** Grouping the flattened result of a grouping gives the same groups in
    the same order with the same segments; the video information of each
    is that of its first segment. *)
Lemma sorted_groups_regrouped (results : list row) :
  sorted_groups (flatten (sorted_groups results))
    = map with_best_metadata (sorted_groups results).
Proof.
  unfold sorted_groups at 1.
  rewrite initial_groups_flatten_best.
  - rewrite sort_group_segments_fixpoint.
    + apply sort_stable_fixpoint.
      apply (non_increasing_map (fun kv => top_similarity (snd kv)));
        [reflexivity | apply sort_stable_sorted].
    + intros kv Hin. apply in_map_iff in Hin as [[k grp] [<- Hin]]. simpl.
      apply sorted_groups_In in Hin as [_ ->]. simpl.
      apply sort_stable_sorted.
  - apply sorted_groups_NoDup.
  - apply sorted_groups_own_video.
Qed.

Lemma with_best_metadata_consistent (results : list row) :
  consistent_metadata results ->
  map with_best_metadata (sorted_groups results) = sorted_groups results.
Proof.
  intros Hcons. rewrite <- (map_id (sorted_groups results)) at 2.
  apply map_ext_in. intros [k grp] Hin.
  destruct (sorted_groups_blocks results Hcons k grp Hin) as [Hne Hall].
  unfold with_best_metadata. simpl.
  destruct grp as [info segs]. simpl in *.
  destruct segs as [ | s segs]; [now contradiction Hne | ].
  destruct (Hall s) as [_ ->]; [now left | reflexivity].
Qed.

(** C8.  The claim fails on two matches of one video with different titles:
    the first grouping keeps the title of the first match, the second one
    the title of the best match. *)
Lemma regrouping_changes_metadata :
  ~ (exists g,
       group_results_by_video retitled_results = Ok g /\
       group_results_by_video (flatten g) = Ok g).
Proof.
  intros [g [H1 H2]]. vm_compute in H1. injection H1 as <-.
  vm_compute in H2. discriminate H2.
Qed.

(** C8, as the code has it.  On numeric or missing similarities, grouping
    the flattened result of a grouping returns the same video ids in the
    same order, each with the same segments in the same order.  The video
    information of a group is then that of its first segment; so when the
    matches of each video agree on the video-level fields, the second
    grouping returns the very result of the first. *)
Theorem grouping_idempotent (results : list row) :
  forallb numeric_similarity results = true ->
  exists g g',
    group_results_by_video results = Ok g /\
    group_results_by_video (flatten g) = Ok g' /\
    dict_keys g' = dict_keys g /\
    map (fun kv => segments (snd kv)) g'
      = map (fun kv => segments (snd kv)) g /\
    g' = map with_best_metadata g /\
    (consistent_metadata results -> g' = g).
Proof.
  intros Hnum.
  exists (sorted_groups results),
         (map with_best_metadata (sorted_groups results)).
  pose proof (group_results_by_video_numeric results Hnum) as Hok.
  split; [exact Hok | ].
  destruct (group_results_by_video_Ok _ _ Hok) as [_ [_ [Hperm _]]].
  split; [ | split; [ | split; [ | split]]].
  - rewrite group_results_by_video_numeric
      by now apply flatten_numeric with results.
    f_equal. apply sorted_groups_regrouped.
  - unfold dict_keys. rewrite map_map. reflexivity.
  - rewrite map_map. reflexivity.
  - reflexivity.
  - apply with_best_metadata_consistent.
Qed.

Lemma sample_results_consistent : consistent_metadata sample_results.
Proof.
  intros r1 r2 H1 H2 Hid. unfold sample_results in H1, H2. simpl in H1, H2.
  repeat (destruct H1 as [<- | H1]; [ | ]); try contradiction;
    repeat (destruct H2 as [<- | H2]; [ | ]); try contradiction;
    first [reflexivity | discriminate Hid].
Qed.

Lemma grouping_idempotent_witness :
  exists g g',
    group_results_by_video sample_results = Ok g /\
    group_results_by_video (flatten g) = Ok g' /\
    dict_keys g' = dict_keys g /\
    map (fun kv => segments (snd kv)) g'
      = map (fun kv => segments (snd kv)) g /\
    g' = map with_best_metadata g /\
    (consistent_metadata sample_results -> g' = g).
Proof.
  apply (grouping_idempotent sample_results). reflexivity.
Defined.

(** ** The record handed to the renderers *)

Lemma metadata_lacks_transcription_language (r : row) :
  dict_lookup "transcription_language" (metadata r) = None.
Proof.
  reflexivity.
Qed.

Lemma Forall2_same_group_In_r (d1 d2 : dict group) (b : string * group) :
  Forall2 same_group d1 d2 -> In b d2 ->
  exists a, In a d1 /\ same_group a b.
Proof.
  induction 1 as [ | x y d1 d2 Hxy H IH]; intros Hin.
  - contradiction.
  - destruct Hin as [<- | Hin].
    + exists x. split; [now left | exact Hxy].
    + destruct (IH Hin) as [a [Ha Hab]]. exists a. split; [now right | exact Hab].
Qed.

(** No group of any result has the key [transcription_language] in its
    video information, whatever the rows carry, and the dashboard shows
    [Unknown]. *)
Lemma video_info_never_has_language (results : list row) (g : dict group)
    (vid : string) (grp : group) :
  group_results_by_video results = Ok g ->
  In (vid, grp) g ->
  dict_lookup "transcription_language" (video_info grp) = None /\
  card_language grp = VStr "Unknown".
Proof.
  intros Hg Hin.
  destruct (group_results_by_video_cases results)
    as [Hraise | [vg [g' [Hok [Hrel Hperm]]]]]; [congruence | ].
  rewrite Hg in Hok. injection Hok as <-.
  apply (Permutation_in _ (Permutation_sym Hperm)) in Hin.
  destruct (Forall2_same_group_In_r _ _ _ Hrel Hin) as [a [Ha [_ [Hinfo _]]]].
  apply initial_groups_In in Ha as [Hid Hsnd]. simpl in Hinfo.
  rewrite Hsnd in Hinfo. unfold group_of in Hinfo. simpl in Hinfo.
  destruct (first_match (fst a) results) as [r0 | ] eqn:Hfirst.
  - assert (Hnone : dict_lookup "transcription_language" (video_info grp)
                    = None).
    { rewrite <- Hinfo. apply metadata_lacks_transcription_language. }
    split; [exact Hnone | ].
    unfold card_language, dict_get. now rewrite Hnone.
  - apply first_match_None in Hfirst. contradiction.
Qed.

(** C5.  For a match transcribed in English, the video information of its
    group has the nine other video-level fields but no transcription
    language; the dashboard, which reads it there, shows [Unknown]. *)
Theorem video_info_omits_transcription_language :
  let match_en := sample_row "v1" "talk" (VStr "en") (VNum 0.9) in
  transcription_language match_en = VStr "en" /\
  exists grp,
    group_results_by_video [match_en] = Ok [("v1", grp)] /\
    segments grp = [match_en] /\
    dict_keys (video_info grp)
      = ["video_id"; "title"; "description"; "published_at"; "duration";
         "view_count"; "like_count"; "comment_count"; "favorite_count"] /\
    dict_lookup "transcription_language" (video_info grp) = None /\
    card_language grp = VStr "Unknown".
Proof.
  simpl. split; [reflexivity | ].
  eexists. split; [vm_compute; reflexivity | ].
  repeat split.
Qed.

(** ** [format_duration] *)

(** [str] prints the numeral that reads back as the number. *)
Lemma str_reads_back (n : Z) :
  option_map Z.of_int (NilZero.int_of_string (str n)) = Some n.
Proof.
  unfold str. rewrite NilZero.isi.
  - simpl. now rewrite DecimalZ.of_to.
  - destruct n; simpl; try discriminate.
    intros [= H]. now apply DecimalPos.Unsigned.to_uint_nonnil in H.
  - destruct n; simpl; try discriminate.
    intros [= H]. now apply DecimalPos.Unsigned.to_uint_nonnil in H.
Qed.

Lemma fmt_02d_two_digits (n : Z) :
  0 <= n < 100 -> fmt_02d n = two_digits n.
Proof.
  intros Hn.
  assert (Hall : forallb
            (fun k => String.eqb (fmt_02d (Z.of_nat k))
                                 (two_digits (Z.of_nat k)))
            (seq 0 100) = true) by (vm_compute; reflexivity).
  rewrite forallb_forall in Hall. specialize (Hall (Z.to_nat n)).
  rewrite Z2Nat.id in Hall by lia.
  apply String.eqb_eq, Hall, in_seq. lia.
Qed.

Lemma minutes_of_hour (s : Z) : (s mod 3600) / 60 = (s / 60) mod 60.
Proof.
  Z.div_mod_to_equations. lia.
Qed.

(** Below zero the hours are negative, and what is printed is the time
    within the hour, counted from its start. *)
Lemma format_duration_negative (s : Z) :
  s < 0 -> format_duration (Some s) = format_duration (Some (s mod 3600)).
Proof.
  intros Hs. unfold format_duration.
  assert (H1 : (0 <? s / 3600) = false).
  { apply Z.ltb_ge. Z.div_mod_to_equations. lia. }
  assert (H2 : (0 <? (s mod 3600) / 3600) = false).
  { apply Z.ltb_ge. Z.div_mod_to_equations. lia. }
  rewrite H1, H2.
  replace ((s mod 3600) mod 3600) with (s mod 3600)
    by (Z.div_mod_to_equations; lia).
  replace ((s mod 3600) mod 60) with (s mod 60)
    by (Z.div_mod_to_equations; lia).
  reflexivity.
Qed.

(** C6.  The claim fails below zero: five seconds before zero are printed
    as [59:55], where the specification says [0:00]. *)
Lemma format_duration_negative_seconds :
  format_duration (Some (-5)) = "59:55" /\
  format_duration (Some (-5)) <> format_duration_spec (Some (-5)).
Proof.
  split; [reflexivity | ]. vm_compute. discriminate.
Qed.

(** For [None] and for every whole number of seconds that is not
    negative, the function prints what the specification says:
    [0:00] for [None], minutes and two-digit seconds below one hour, hours,
    two-digit minutes and two-digit seconds from one hour on; and the four
    values named by the specification are printed as it says. *)
Theorem format_duration_correct :
  (forall seconds : option Z,
     (forall s, seconds = Some s -> 0 <= s) ->
     format_duration seconds = format_duration_spec seconds) /\
  format_duration (Some 0) = "0:00" /\
  format_duration (Some 65) = "1:05" /\
  format_duration (Some 3661) = "1:01:01" /\
  format_duration None = "0:00".
Proof.
  split; [ | repeat split].
  intros [s | ] Hs; [ | reflexivity].
  specialize (Hs s eq_refl). unfold format_duration, format_duration_spec.
  assert (E0 : (s <? 0) = false) by (apply Z.ltb_ge; lia).
  rewrite E0. rewrite minutes_of_hour.
  rewrite (fmt_02d_two_digits (s mod 60))
    by (Z.div_mod_to_equations; lia).
  destruct (Z.ltb_spec s 3600) as [Hlt | Hge].
  - assert (E1 : (0 <? s / 3600) = false).
    { apply Z.ltb_ge. Z.div_mod_to_equations. lia. }
    rewrite E1. f_equal. f_equal. Z.div_mod_to_equations. lia.
  - assert (E1 : (0 <? s / 3600) = true).
    { apply Z.ltb_lt. Z.div_mod_to_equations. lia. }
    rewrite E1.
    rewrite (fmt_02d_two_digits ((s / 60) mod 60))
      by (Z.div_mod_to_equations; lia).
    reflexivity.
Qed.

Lemma format_duration_correct_witness :
  format_duration (Some 3599) = "59:59" /\
  format_duration (Some 360000) = "100:00:00".
Proof.
  split.
  - rewrite (proj1 format_duration_correct (Some 3599)).
    + reflexivity.
    + intros s [= <-]. lia.
  - rewrite (proj1 format_duration_correct (Some 360000)).
    + reflexivity.
    + intros s [= <-]. lia.
Defined.

(** ** [format_number] *)

Lemma round_half_even_spec (num den : Z) :
  0 < den -> 2 * Z.abs (round_half_even num den * den - num) <= den.
Proof.
  intros Hd. unfold round_half_even.
  pose proof (Z.div_mod num den ltac:(lia)) as E.
  pose proof (Z.mod_pos_bound num den Hd) as B.
  set (q := num / den) in *. set (r := num mod den) in *.
  destruct (Z.ltb_spec (2 * r) den); [lia | ].
  destruct (Z.ltb_spec den (2 * r)); [lia | ].
  destruct (Z.even q); lia.
Qed.

Lemma round_half_even_nonneg (num den : Z) :
  0 <= num -> 0 < den -> 0 <= round_half_even num den.
Proof.
  intros Hn Hd. unfold round_half_even.
  pose proof (Z.div_pos num den Hn Hd) as Hq.
  destruct (2 * (num mod den) <? den); [lia | ].
  destruct (den <? 2 * (num mod den)); [lia | ].
  destruct (Z.even (num / den)); lia.
Qed.

Lemma round_half_even_upper (num den : Z) :
  0 <= num -> 0 < den -> round_half_even num den <= num + 1.
Proof.
  intros Hn Hd. unfold round_half_even.
  assert (Hq : num / den <= num).
  { apply Z.div_le_upper_bound; [exact Hd | nia]. }
  destruct (2 * (num mod den) <? den); [lia | ].
  destruct (den <? 2 * (num mod den)); [lia | ].
  destruct (Z.even (num / den)); lia.
Qed.

(** A quotient below [2 ^ k] has an exponent of at most [k - 53]. *)
Lemma quotient_exponent_bound (a b k : Z) :
  0 < b -> b <= a -> 0 <= k < 52 -> a < 2 ^ k * b ->
  quotient_exponent a b <= k - 53.
Proof.
  intros Hb Hba Hk Hlt. unfold quotient_exponent.
  set (e0 := Z.log2 a - Z.log2 b - 52).
  assert (Hlog : Z.log2 a <= k + Z.log2 b).
  { destruct (Z.log2_spec b Hb) as [_ Hub].
    pose proof (Z.log2_nonneg b) as Hlb.
    assert (Hpow : a < 2 ^ (k + Z.log2 b + 1)).
    { replace (k + Z.log2 b + 1) with (k + Z.succ (Z.log2 b)) by lia.
      rewrite Z.pow_add_r by lia.
      assert (0 < 2 ^ k) by (apply Z.pow_pos_nonneg; lia). nia. }
    apply Z.log2_lt_pow2 in Hpow; lia. }
  assert (He0 : e0 <= k - 52) by (unfold e0; lia).
  assert (Hneg : (0 <=? e0) = false) by (apply Z.leb_gt; lia).
  rewrite Hneg.
  destruct (Z.ltb_spec (a * 2 ^ (- e0) / b) (2 ^ 52)) as [Hq | Hq]; [lia | ].
  assert (He : e0 <> k - 52); [ | lia].
  intros Heq. apply (Z.lt_irrefl (2 ^ 52)).
  apply Z.le_lt_trans with (a * 2 ^ (- e0) / b); [exact Hq | ].
  apply Z.div_lt_upper_bound; [exact Hb | ].
  replace (2 ^ 52) with (2 ^ k * 2 ^ (- e0)).
  - assert (0 < 2 ^ (- e0)) by (apply Z.pow_pos_nonneg; lia). nia.
  - rewrite <- Z.pow_add_r by lia. f_equal. lia.
Qed.

(** Such a quotient is computed without overflow, as the rounded quotient
    of the numerator scaled by a power of two of at least [53 - k]. *)
Lemma truediv_pos_small (a b k : Z) :
  0 < b -> b <= a -> 0 <= k < 52 -> a < 2 ^ k * b -> a < 2 ^ 1000 ->
  exists x,
    truediv_pos a b = Ok x /\
    exponent x <= k - 53 /\
    mantissa x = round_half_even (a * 2 ^ (- exponent x)) b.
Proof.
  intros Hb Hba Hk Hlt Hbig. unfold truediv_pos.
  pose proof (quotient_exponent_bound a b k Hb Hba Hk Hlt) as He.
  set (e := quotient_exponent a b) in *.
  assert (Hneg : (0 <=? e) = false) by (apply Z.leb_gt; lia).
  rewrite Hneg.
  set (m := round_half_even (a * 2 ^ (- e)) b).
  assert (Hpos : 0 < 2 ^ (- e)) by (apply Z.pow_pos_nonneg; lia).
  assert (Hm : Z.log2 m + e < 1024).
  { assert (Hup : m <= a * 2 ^ (- e) + 1)
      by (apply round_half_even_upper; nia).
    assert (Hup2 : m <= a * 2 ^ (1 - e)).
    { replace (1 - e) with (1 + - e) by lia. rewrite Z.pow_add_r by lia.
      change (2 ^ 1) with 2. nia. }
    apply Z.log2_le_mono in Hup2.
    rewrite Z.log2_mul_pow2 in Hup2 by lia.
    assert (Z.log2 a < 1000) by (apply Z.log2_lt_pow2; lia). lia. }
  assert (Hov : (1024 <=? Z.log2 m + e) = false) by (apply Z.leb_gt; lia).
  rewrite Hov. eexists. split; [reflexivity | ]. simpl. split; [exact He | ].
  reflexivity.
Qed.

(** Two roundings in a row, the first on a grid finer than ten times the
    half unit of the second, end at a nearest point of the second. *)
Lemma tenths_nearest (h n m t P : Z) :
  0 < h -> 10 * h < P ->
  2 * Z.abs (m * (20 * h) - n * P) <= 20 * h ->
  2 * Z.abs (t * P - 10 * m) <= P ->
  nearest_tenths t n (20 * h).
Proof.
  intros Hh HP Hm Ht. unfold nearest_tenths.
  assert (H : P * Z.abs (t * (2 * h) - n) <= h * P + 10 * h) by nia.
  assert (Hlt : P * Z.abs (t * (2 * h) - n) < (h + 1) * P) by nia.
  assert (Hy : Z.abs (t * (2 * h) - n) < h + 1) by nia.
  lia.
Qed.

Lemma fmt_1f_nonneg (x : float) :
  0 <= mantissa x -> fmt_1f x = one_decimal (tenths x).
Proof.
  intros Hm. unfold fmt_1f, one_decimal.
  assert (E : (mantissa x <? 0) = false) by (apply Z.ltb_ge; lia).
  rewrite E. reflexivity.
Qed.

(** The quotient of a count by [20 * h], printed with one decimal, is a
    nearest one-decimal number, as long as the quotient is below [2 ^ k]
    and [2 ^ (53 - k)] exceeds [10 * h]. *)
Lemma one_decimal_quotient (n : Z) (p : positive) (h k : Z) :
  Zpos p = 20 * h -> 0 <= k < 52 -> 10 * h < 2 ^ (53 - k) ->
  Zpos p <= n -> n < 2 ^ k * Zpos p -> n < 2 ^ 1000 ->
  exists x t,
    int_truediv n p = Ok x /\
    fmt_1f x = one_decimal t /\
    0 <= t /\
    nearest_tenths t n (Zpos p).
Proof.
  intros Hp Hk Hh Hle Hlt Hbig.
  destruct (truediv_pos_small n (Zpos p) k) as [x [Hx [He Hm]]];
    try assumption; [lia | ].
  set (P := 2 ^ (- exponent x)) in *.
  assert (HP : 2 ^ (53 - k) <= P) by (apply Z.pow_le_mono_r; lia).
  assert (HP0 : 0 < P) by (apply Z.pow_pos_nonneg; lia).
  assert (Hm0 : 0 <= mantissa x).
  { rewrite Hm. apply round_half_even_nonneg; nia. }
  exists x, (tenths x). split; [ | split; [ | split]].
  - destruct n as [ | n' | n']; try lia. exact Hx.
  - now apply fmt_1f_nonneg.
  - unfold tenths. rewrite Z.abs_eq by exact Hm0.
    destruct (0 <=? exponent x); [nia | ].
    apply round_half_even_nonneg; lia.
  - assert (Ht : tenths x = round_half_even (10 * mantissa x) P).
    { unfold tenths. rewrite Z.abs_eq by exact Hm0.
      assert (E : (0 <=? exponent x) = false) by (apply Z.leb_gt; lia).
      now rewrite E. }
    assert (Hh0 : 0 < h) by lia.
    rewrite Hp. apply (tenths_nearest h n (mantissa x) (tenths x) P);
      [exact Hh0 | lia | | ].
    + rewrite Hm, <- Hp. apply round_half_even_spec. lia.
    + rewrite Ht. now apply round_half_even_spec.
Qed.

(** C7.  The claim fails on a count beyond [2 ^ 34] millions: the quotient
    is rounded to 53 bits before it is rounded to one decimal, and
    17908775950250001 is printed as 17908775950.2M, while the nearest
    one-decimal number of millions is 17908775950.3.  Far beyond, nothing is
    returned at all: the quotient of [10 ^ 320] is too large for a float. *)
Lemma format_number_beyond_bound :
  format_number (Some 17908775950250001) = Ok "17908775950.2M" /\
  ~ (exists t,
       format_number (Some 17908775950250001)
         = Ok (one_decimal t ++ "M")%string /\
       nearest_tenths t 17908775950250001 1000000) /\
  format_number (Some (10 ^ 320)) = Raise OverflowError.
Proof.
  split; [vm_compute; reflexivity | ]. split; [ | vm_compute; reflexivity].
  intros [t [H Hn]]. unfold nearest_tenths in Hn.
  assert (Ht : t = 179087759503) by lia. subst t.
  vm_compute in H. discriminate H.
Qed.

(** C7, as the code has it.  [None] is printed as 0; a count from one
    million up to (not including) [2 ^ 34] millions as a nearest
    one-decimal number of millions followed by M; a count from one thousand
    up to one million as a nearest one-decimal number of thousands followed
    by K; a smaller count as the integer itself; and the values named by the
    specification are printed as it says. *)
Theorem format_number_correct :
  format_number None = Ok "0" /\
  (forall n, 1000000 <= n < millions_bound ->
     exists t,
       format_number (Some n) = Ok (one_decimal t ++ "M")%string /\
       0 <= t /\ nearest_tenths t n 1000000) /\
  (forall n, 1000 <= n < 1000000 ->
     exists t,
       format_number (Some n) = Ok (one_decimal t ++ "K")%string /\
       0 <= t /\ nearest_tenths t n 1000) /\
  (forall n, n < 1000 -> format_number (Some n) = Ok (str n)) /\
  format_number (Some 1500) = Ok "1.5K" /\
  format_number (Some 2300000) = Ok "2.3M".
Proof.
  split; [reflexivity | ]. split; [ | split; [ | split; [ | split]]].
  - intros n [Hlo Hhi].
    destruct (one_decimal_quotient n 1000000 50000 34)
      as [x [t [Hx [Hf [Ht Hn]]]]].
    + reflexivity.
    + lia.
    + reflexivity.
    + exact Hlo.
    + exact Hhi.
    + apply Z.lt_trans with millions_bound; [exact Hhi | reflexivity].
    + exists t. split; [ | split; assumption].
      unfold format_number.
      assert (E : (1000000 <=? n) = true) by (apply Z.leb_le; lia).
      rewrite E, Hx. simpl. now rewrite Hf.
  - intros n [Hlo Hhi].
    destruct (one_decimal_quotient n 1000 50 10)
      as [x [t [Hx [Hf [Ht Hn]]]]];
      [reflexivity | lia | reflexivity | exact Hlo | | | ].
    { apply Z.lt_trans with 1000000; [exact Hhi | reflexivity]. }
    { apply Z.lt_trans with 1000000; [exact Hhi | reflexivity]. }
    exists t. split; [ | split; assumption].
    unfold format_number.
    assert (E1 : (1000000 <=? n) = false) by (apply Z.leb_gt; lia).
    assert (E2 : (1000 <=? n) = true) by (apply Z.leb_le; lia).
    rewrite E1, E2, Hx. simpl. now rewrite Hf.
  - intros n Hn. unfold format_number.
    assert (E1 : (1000000 <=? n) = false) by (apply Z.leb_gt; lia).
    assert (E2 : (1000 <=? n) = false) by (apply Z.leb_gt; lia).
    now rewrite E1, E2.
  - vm_compute. reflexivity.
  - vm_compute. reflexivity.
Qed.

Lemma format_number_correct_witness :
  (exists t,
     format_number (Some 1150000) = Ok (one_decimal t ++ "M")%string /\
     0 <= t /\ nearest_tenths t 1150000 1000000) /\
  format_number (Some 999) = Ok (str 999).
Proof.
  destruct format_number_correct as [_ [HM [_ [Hsmall _]]]]. split.
  - apply HM. unfold millions_bound. lia.
  - apply Hsmall. lia.
Defined.

(** ** The scenarios of the specification *)

(** Scenario A: three matches of one video with similarities 0.9, 0.4 and
    0.7 and the threshold 0.5 give two accepted matches in one group, in
    the order 0.9, 0.7. *)
Example scenario_A :
  let m (s : Q) := sample_row "v1" "talk" (VStr "en") (VNum s) in
  (accepted <- search_similar_segments
                 [m 0.9%Q; m 0.4%Q; m 0.7%Q] 0.5 ;;
   group_results_by_video accepted)
  = Ok [("v1", {| video_info := metadata (m 0.9%Q);
                  segments := [m 0.9%Q; m 0.7%Q] |})].
Proof.
  vm_compute. reflexivity.
Qed.

(** Scenario B: two videos whose best similarities are 0.6 and 0.8, with
    the threshold 0.3, come out in the order v2, v1. *)
Example scenario_B :
  (accepted <- search_similar_segments
                 [sample_row "v1" "talk" (VStr "en") (VNum 0.6);
                  sample_row "v2" "news" (VStr "en") (VNum 0.8)] 0.3 ;;
   g <- group_results_by_video accepted ;;
   Ok (dict_keys g))
  = Ok ["v2"; "v1"].
Proof.
  vm_compute. reflexivity.
Qed.

(** Scenario C: one match without a similarity and the threshold 0.4 give
    no accepted match and no error, and grouping nothing gives nothing. *)
Example scenario_C :
  search_similar_segments [sample_row "v1" "talk" (VStr "en") VNone] 0.4
    = Ok [] /\
  group_results_by_video [] = Ok [].
Proof.
  split; reflexivity.
Qed.

(** * Further properties of the code *)

(** ** The re-check, once more *)

Lemma search_similar_segments_positive_threshold_witness :
  search_similar_segments sample_results 0.7
    = Ok (filterByThreshold_spec sample_results 0.7).
Proof.
  apply (search_similar_segments_positive_threshold sample_results 0.7).
  - reflexivity.
  - reflexivity.
Defined.

Lemma recheck_cases (fetched : list row) (t : Q) :
  (existsb malformed_similarity fetched = true /\
   search_similar_segments fetched t = Raise TypeError) \/
  (existsb malformed_similarity fetched = false /\
   search_similar_segments fetched t
     = Ok (filter (accepted_by_recheck t) fetched)).
Proof.
  unfold search_similar_segments.
  destruct (existsb malformed_similarity fetched) eqn:E.
  - left. split; [reflexivity | now apply recheck_loop_malformed].
  - right. split; [reflexivity | ].
    now rewrite recheck_loop_well_typed by now apply no_malformed_similarity.
Qed.

(** Whatever was fetched, a list that the function returns is the fetched
    rows, in order, whose similarity is a number other than zero and at
    least the threshold. *)
Theorem recheck_returns_filtered (fetched accepted : list row) (t : Q) :
  search_similar_segments fetched t = Ok accepted ->
  accepted = filter (accepted_by_recheck t) fetched /\
  forall r, In r accepted ->
    In r fetched /\
    exists q, similarity r = VNum q /\ (t <= q)%Q /\ ~ (q == 0)%Q.
Proof.
  intros Hs.
  destruct (recheck_cases fetched t) as [[_ Hr] | [_ Hok]]; [congruence | ].
  rewrite Hs in Hok. injection Hok as ->. split; [reflexivity | ].
  intros r Hr. apply filter_In in Hr as [Hin Hacc]. split; [exact Hin | ].
  unfold accepted_by_recheck, present_and_ge in Hacc.
  destruct (similarity r) as [ | q | s | u]; simpl in Hacc;
    rewrite ?andb_false_r in Hacc; try discriminate.
  exists q. apply andb_true_iff in Hacc as [Hz Hle].
  split; [reflexivity | split].
  - now apply Qle_bool_iff.
  - intros Hq. apply Qeq_bool_iff in Hq. rewrite Hq in Hz. discriminate Hz.
Qed.

Lemma recheck_returns_filtered_witness :
  [sample_row "v2" "news" (VStr "en") (VNum 0.9)]
  = filter (accepted_by_recheck 0)
      [sample_row "v1" "talk" (VStr "en") (VNum 0);
       sample_row "v2" "news" (VStr "en") (VNum 0.9);
       sample_row "v3" "song" (VStr "fr") VNone] /\
  exists q,
    similarity (sample_row "v2" "news" (VStr "en") (VNum 0.9)) = VNum q /\
    (0 <= q)%Q /\ ~ (q == 0)%Q.
Proof.
  destruct (recheck_returns_filtered
              [sample_row "v1" "talk" (VStr "en") (VNum 0);
               sample_row "v2" "news" (VStr "en") (VNum 0.9);
               sample_row "v3" "song" (VStr "fr") VNone]
              [sample_row "v2" "news" (VStr "en") (VNum 0.9)] 0 eq_refl)
    as [Heq Hall].
  split; [exact Heq | ].
  exact (proj2 (Hall _ (or_introl eq_refl))).
Defined.

Lemma existsb_filter_false {A : Type} (p q : A -> bool) (l : list A) :
  existsb p l = false -> existsb p (filter q l) = false.
Proof.
  induction l as [ | x l IH]; simpl; [reflexivity | ].
  intros H. apply orb_false_iff in H as [Hx Hl].
  destruct (q x); simpl; [rewrite Hx | ]; now apply IH.
Qed.

Lemma filter_filter_implied {A : Type} (p q : A -> bool) (l : list A) :
  (forall x, q x = true -> p x = true) ->
  filter q (filter p l) = filter q l.
Proof.
  intros Himp. induction l as [ | x l IH]; simpl; [reflexivity | ].
  destruct (p x) eqn:Hp; simpl.
  - now rewrite IH.
  - destruct (q x) eqn:Hq; [ | exact IH].
    apply Himp in Hq. congruence.
Qed.

(** Checking the accepted rows again, with the same threshold or a higher
    one, gives what checking the fetched rows with that threshold gives: the
    re-check is idempotent, and a stricter one can start from the result of
    a laxer one. *)
Theorem recheck_of_accepted (fetched accepted : list row) (t t' : Q) :
  (t <= t')%Q ->
  search_similar_segments fetched t = Ok accepted ->
  search_similar_segments accepted t' = search_similar_segments fetched t'.
Proof.
  intros Hle Hs.
  destruct (recheck_cases fetched t) as [[_ Hr] | [Hwell Hok]];
    [congruence | ].
  rewrite Hs in Hok. injection Hok as ->.
  destruct (recheck_cases fetched t') as [[Hm _] | [_ ->]]; [congruence | ].
  destruct (recheck_cases (filter (accepted_by_recheck t) fetched) t')
    as [[Hm _] | [_ ->]].
  - rewrite existsb_filter_false in Hm by exact Hwell. discriminate Hm.
  - f_equal. apply filter_filter_implied. intros r.
    unfold accepted_by_recheck, present_and_ge.
    destruct (similarity r) as [ | q | s | u]; simpl;
      rewrite ?andb_false_r; try discriminate.
    intros H. apply andb_true_iff in H as [Hz Hq]. rewrite Hz. simpl.
    apply Qle_bool_iff. apply Qle_bool_iff in Hq.
    now apply Qle_trans with t'.
Qed.

Lemma recheck_of_accepted_witness :
  search_similar_segments
    [sample_row "v2" "news" (VStr "en") (VNum 0.8);
     sample_row "v3" "song" (VStr "fr") (VNum 0.9);
     sample_row "v2" "news" (VStr "en") (VNum 0.9)] 0.9
  = search_similar_segments sample_results 0.9.
Proof.
  apply (recheck_of_accepted sample_results _ 0.7 0.9).
  - unfold Qle. simpl. lia.
  - reflexivity.
Defined.

(** ** The groups, whatever the types of the similarities *)

Lemma returned_group_origin (results : list row) (g : dict group)
    (vid : string) (grp : group) :
  group_results_by_video results = Ok g ->
  In (vid, grp) g ->
  In vid (map video_id results) /\
  video_info grp = video_info (group_of results vid) /\
  Permutation (filter (has_video_id vid) results) (segments grp).
Proof.
  intros Hg Hin.
  destruct (group_results_by_video_cases results)
    as [Hraise | [vg [g' [Hok [Hrel Hperm]]]]]; [congruence | ].
  rewrite Hg in Hok. injection Hok as <-.
  apply (Permutation_in _ (Permutation_sym Hperm)) in Hin.
  destruct (Forall2_same_group_In_r _ _ _ Hrel Hin)
    as [[k g0] [Ha [Hk [Hinfo Hsegs]]]].
  simpl in Hk, Hinfo, Hsegs. subst k.
  apply initial_groups_In in Ha as [Hid Hsnd]. simpl in Hid, Hsnd. subst g0.
  repeat split; [exact Hid | now symmetry | exact Hsegs].
Qed.

(** The group stored under a video id holds the matches of that video, all
    of them and each once, and no match of another video. *)
Theorem groups_partition_by_video_id (results : list row) (g : dict group)
    (vid : string) (grp : group) :
  group_results_by_video results = Ok g ->
  In (vid, grp) g ->
  Permutation (segments grp) (filter (has_video_id vid) results) /\
  forall s, In s (segments grp) -> video_id s = vid /\ In s results.
Proof.
  intros Hg Hin.
  destruct (returned_group_origin _ _ _ _ Hg Hin) as [_ [_ Hperm]].
  split; [now apply Permutation_sym | ].
  intros s Hs. apply (Permutation_in _ (Permutation_sym Hperm)) in Hs.
  apply filter_In in Hs as [Hs Hid]. split; [ | exact Hs].
  now apply String.eqb_eq.
Qed.

Lemma groups_partition_by_video_id_witness :
  let first := sample_row "v1" "first title" (VStr "en") (VNum 0.5) in
  let second := sample_row "v1" "second title" (VStr "en") (VNum 0.9) in
  Permutation [second; first] (filter (has_video_id "v1") retitled_results) /\
  forall s, In s [second; first] ->
    video_id s = "v1" /\ In s retitled_results.
Proof.
  exact (groups_partition_by_video_id retitled_results
           [("v1", {| video_info :=
                        metadata (sample_row "v1" "first title" (VStr "en")
                                    (VNum 0.5));
                      segments :=
                        [sample_row "v1" "second title" (VStr "en") (VNum 0.9);
                         sample_row "v1" "first title" (VStr "en")
                           (VNum 0.5)] |})]
           "v1" _ eq_refl (or_introl eq_refl)).
Defined.

Lemma first_seen_length (ids : list string) :
  (List.length (first_seen ids) <= List.length ids)%nat.
Proof.
  induction ids as [ | x ids IH]; simpl; [lia | ].
  pose proof (filter_length_le (fun y => negb (String.eqb y x))
                (first_seen ids)). lia.
Qed.

Lemma returned_keys (results : list row) (g : dict group) :
  group_results_by_video results = Ok g ->
  Permutation (dict_keys g) (first_seen (map video_id results)).
Proof.
  intros Hg.
  destruct (group_results_by_video_cases results)
    as [Hraise | [vg [g' [Hok [Hrel Hperm]]]]]; [congruence | ].
  rewrite Hg in Hok. injection Hok as <-.
  rewrite <- initial_groups_keys, (Forall2_same_group_keys _ _ Hrel).
  apply Permutation_sym. unfold dict_keys. now apply Permutation_map.
Qed.

Lemma group_keys_are_the_video_ids_aux (results : list row)
    (g : dict group) :
  group_results_by_video results = Ok g ->
  (List.length g <= List.length results)%nat /\
  (results <> [] -> g <> []).
Proof.
  intros Hg. pose proof (returned_keys _ _ Hg) as Hperm. split.
  - apply Permutation_length in Hperm. unfold dict_keys in Hperm.
    rewrite length_map in Hperm. rewrite Hperm.
    pose proof (first_seen_length (map video_id results)) as H.
    now rewrite length_map in H.
  - intros Hne Hnil. destruct results as [ | r l]; [now contradiction Hne | ].
    assert (H : In (video_id r) (first_seen (map video_id (r :: l))))
      by (apply first_seen_In; now left).
    apply (Permutation_in _ (Permutation_sym Hperm)) in H.
    rewrite Hnil in H. contradiction.
Qed.

(** The keys of the result are the video ids of the input, each once; so
    there are at most as many groups as matches, and at least one when
    there is a match. *)
Theorem group_keys_are_the_video_ids (results : list row) (g : dict group) :
  group_results_by_video results = Ok g ->
  NoDup (dict_keys g) /\
  (forall vid, In vid (dict_keys g) <-> In vid (map video_id results)) /\
  (List.length g <= List.length results)%nat /\
  (results <> [] -> g <> []).
Proof.
  intros Hg. pose proof (returned_keys _ _ Hg) as Hperm.
  assert (Hiff : forall vid,
            In vid (dict_keys g) <-> In vid (map video_id results)).
  { intros vid. rewrite <- (first_seen_In (map video_id results)). split.
    - apply (Permutation_in _ Hperm).
    - apply (Permutation_in _ (Permutation_sym Hperm)). }
  split; [ | split; [exact Hiff | split]].
  - apply (Permutation_NoDup (Permutation_sym Hperm)), first_seen_NoDup.
  - apply Permutation_length in Hperm. unfold dict_keys in Hperm.
    rewrite length_map in Hperm. rewrite Hperm.
    pose proof (first_seen_length (map video_id results)) as H.
    now rewrite length_map in H.
  - intros Hne Hnil. destruct results as [ | r l]; [now contradiction Hne | ].
    assert (H : In (video_id r) (dict_keys g)) by (apply Hiff; now left).
    rewrite Hnil in H. contradiction.
Qed.

Lemma group_keys_are_the_video_ids_witness :
  NoDup (dict_keys (sorted_groups retitled_results)) /\
  (forall vid,
     In vid (dict_keys (sorted_groups retitled_results))
     <-> In vid (map video_id retitled_results)) /\
  (List.length (sorted_groups retitled_results)
   <= List.length retitled_results)%nat /\
  (retitled_results <> [] -> sorted_groups retitled_results <> []).
Proof.
  exact (group_keys_are_the_video_ids retitled_results
           (sorted_groups retitled_results) eq_refl).
Defined.

(** ** The re-check, the grouping and the header of the page *)

Lemma html_total_segments_flatten (g : dict group) :
  html_total_segments g = List.length (flatten g).
Proof.
  unfold html_total_segments, flatten.
  induction g as [ | kv g IH]; simpl; [reflexivity | ].
  now rewrite length_app, IH.
Qed.

Lemma html_total_segments_returned (results : list row) (g : dict group) :
  group_results_by_video results = Ok g ->
  html_total_segments g = List.length results.
Proof.
  intros Hg. rewrite html_total_segments_flatten.
  destruct (group_results_by_video_Ok _ _ Hg) as [_ [_ [Hperm _]]].
  now apply Permutation_length.
Qed.

(** On every list that the re-check returns, the grouping returns too: it
    does not raise there.  The total that the header of the page computes
    from the groups is then [len(results)], the number of accepted matches
    that [main] logs beside it; the number of unique videos is at most
    that, and at least one when a match was accepted. *)
Theorem grouping_of_accepted_rows (fetched accepted : list row) (t : Q) :
  search_similar_segments fetched t = Ok accepted ->
  exists g,
    group_results_by_video accepted = Ok g /\
    html_total_segments g = List.length accepted /\
    (html_unique_videos g <= html_total_segments g)%nat /\
    (accepted <> [] -> (1 <= html_unique_videos g)%nat).
Proof.
  intros Hs.
  pose proof (accepted_rows_are_numeric _ _ _ Hs) as Hnum.
  pose proof (group_results_by_video_numeric _ Hnum) as Hg.
  exists (sorted_groups accepted).
  destruct (group_keys_are_the_video_ids_aux _ _ Hg) as [Hlen Hne].
  pose proof (html_total_segments_returned _ _ Hg) as Htotal.
  split; [exact Hg | ]. split; [exact Htotal | ]. split.
  - rewrite Htotal. exact Hlen.
  - intros Hacc. specialize (Hne Hacc). unfold html_unique_videos.
    destruct (sorted_groups accepted); [now contradiction Hne | simpl; lia].
Qed.

Lemma grouping_of_accepted_rows_witness :
  exists g,
    group_results_by_video
      (filter (accepted_by_recheck (2 # 5)) sample_results) = Ok g /\
    html_total_segments g
      = List.length (filter (accepted_by_recheck (2 # 5)) sample_results) /\
    (html_unique_videos g <= html_total_segments g)%nat /\
    (filter (accepted_by_recheck (2 # 5)) sample_results <> [] ->
     (1 <= html_unique_videos g)%nat).
Proof.
  exact (grouping_of_accepted_rows sample_results
           (filter (accepted_by_recheck (2 # 5)) sample_results) (2 # 5)
           eq_refl).
Defined.

(** ** The cards of the two renderers *)

Lemma string_length_append (s1 s2 : string) :
  String.length (s1 ++ s2)%string
    = (String.length s1 + String.length s2)%nat.
Proof.
  induction s1 as [ | c s1 IH]; simpl; [reflexivity | now rewrite IH].
Qed.



(** ** The dashboard's filter by politician *)

Section PoliticianFacts.
Variable lower : string -> string.

Lemma lower_or_empty_lowerable (v : value) :
  lower_or_empty lower v
    = if lowerable v then Done (lower (text_of v)) else AttributeError.
Proof.
  unfold lower_or_empty, lowerable, Py.or_.
  destruct v as [ | q | s | t]; simpl; try reflexivity.
  - destruct (Qeq_bool q 0); reflexivity.
  - destruct (String.eqb_spec s "") as [-> | Hne]; reflexivity.
Qed.

Lemma mentions_lowerable (name : string) (r : row) :
  mentions lower name r
    = if lowerable_fields r then Done (row_mentions lower name r)
      else AttributeError.
Proof.
  unfold mentions, lowerable_fields, row_mentions, mentions_text.
  rewrite !lower_or_empty_lowerable.
  destruct (lowerable (title r)), (lowerable (description r)); reflexivity.
Qed.

Lemma politician_loop_closed (name : string) (results filtered : list row) :
  politician_loop lower name results filtered
    = if forallb lowerable_fields results
      then Done (filtered ++ filter (row_mentions lower name) results)
      else AttributeError.
Proof.
  revert filtered. induction results as [ | r results IH]; intros filtered.
  - simpl. now rewrite app_nil_r.
  - simpl. rewrite mentions_lowerable.
    destruct (lowerable_fields r); simpl; [ | reflexivity].
    destruct (row_mentions lower name r); rewrite IH;
      destruct (forallb lowerable_fields results); try reflexivity.
    now rewrite <- app_assoc.
Qed.

(** The filter in closed form.  With no politician chosen the results are
    left as they are.  Otherwise the rows whose lowered title or lowered
    description contains the lowered name are kept, in order; but a title or
    a description that is neither a string nor falsy, in any row, kept or
    not, raises [AttributeError] for the whole search. *)
Theorem filter_by_politician_closed (main_category sub_category : string)
    (results : list row) :
  filter_by_politician lower main_category sub_category results
    = if politician_chosen main_category sub_category
      then if forallb lowerable_fields results
           then Done (filter (row_mentions lower (lower sub_category)) results)
           else AttributeError
      else Done results.
Proof.
  unfold filter_by_politician, politician_chosen.
  destruct (String.eqb main_category "Speeches of politicians"
            && negb (String.eqb sub_category "Any")); [ | reflexivity].
  apply politician_loop_closed.
Qed.

(** *** Filtering the matches and filtering the groups *)

Lemma filter_map_swap {A B : Type} (f : A -> B) (P : B -> bool)
    (l : list A) :
  filter P (map f l) = map f (filter (fun x => P (f x)) l).
Proof.
  induction l as [ | x l IH]; simpl; [reflexivity | ].
  destruct (P (f x)); simpl; now rewrite IH.
Qed.

Lemma filter_comm {A : Type} (p q : A -> bool) (l : list A) :
  filter p (filter q l) = filter q (filter p l).
Proof.
  induction l as [ | x l IH]; simpl; [reflexivity | ].
  destruct (p x) eqn:Hp, (q x) eqn:Hq; simpl; rewrite ?Hp, ?Hq, IH;
    reflexivity.
Qed.

Section ByVideo.
Variables (p : row -> bool) (pv : string -> bool) (results : list row).
Hypothesis p_by_video : forall r, In r results -> p r = pv (video_id r).

Lemma first_seen_filter_by_video (l : list row) :
  (forall r, In r l -> In r results) ->
  first_seen (map video_id (filter p l))
    = filter pv (first_seen (map video_id l)).
Proof.
  induction l as [ | r l IH]; intros Hsub; [reflexivity | ].
  assert (IH' : first_seen (map video_id (filter p l))
                = filter pv (first_seen (map video_id l))).
  { apply IH. intros x Hx. apply Hsub. now right. }
  simpl. rewrite (p_by_video r) by (apply Hsub; now left).
  destruct (pv (video_id r)) eqn:Hv; simpl.
  - rewrite IH'. f_equal. apply filter_comm.
  - rewrite IH'. symmetry. apply filter_filter_implied.
    intros x Hx. apply negb_true_iff. apply String.eqb_neq.
    intros ->. congruence.
Qed.

Lemma first_match_filter_by_video (vid : string) (l : list row) :
  (forall r, In r l -> In r results) ->
  pv vid = true ->
  first_match vid (filter p l) = first_match vid l.
Proof.
  intros Hsub Hv. unfold first_match.
  induction l as [ | r l IH]; [reflexivity | ].
  assert (IH' : find (has_video_id vid) (filter p l)
                = find (has_video_id vid) l).
  { apply IH. intros x Hx. apply Hsub. now right. }
  simpl. rewrite (p_by_video r) by (apply Hsub; now left).
  unfold has_video_id at 2.
  destruct (String.eqb_spec (video_id r) vid) as [Heq | Hne].
  - rewrite Heq, Hv. simpl. unfold has_video_id at 1.
    rewrite Heq, String.eqb_refl. reflexivity.
  - destruct (pv (video_id r)); simpl; [ | exact IH'].
    unfold has_video_id at 1.
    destruct (String.eqb_spec (video_id r) vid); [contradiction | exact IH'].
Qed.

Lemma group_of_filter_by_video (vid : string) :
  pv vid = true -> group_of (filter p results) vid = group_of results vid.
Proof.
  intros Hv. unfold group_of.
  rewrite first_match_filter_by_video by auto. f_equal.
  rewrite filter_comm.
  assert (E : forall l, (forall r, In r l -> In r results) ->
            filter p (filter (has_video_id vid) l)
              = filter (has_video_id vid) l).
  { induction l as [ | r l IH]; intros Hsub; [reflexivity | ]. simpl.
    assert (IH' := IH (fun x Hx => Hsub x (or_intror Hx))).
    destruct (has_video_id vid r) eqn:Hh; [ | exact IH'].
    simpl. rewrite (p_by_video r) by (apply Hsub; now left).
    apply String.eqb_eq in Hh. rewrite Hh, Hv. now rewrite IH'. }
  now apply E.
Qed.

Lemma initial_groups_filter_by_video :
  initial_groups (filter p results)
    = filter (fun kv => pv (fst kv)) (initial_groups results).
Proof.
  unfold initial_groups. rewrite filter_map_swap. simpl.
  rewrite first_seen_filter_by_video by auto.
  apply map_ext_in. intros v Hv. apply filter_In in Hv as [_ Hv].
  f_equal. now apply group_of_filter_by_video.
Qed.
End ByVideo.
End PoliticianFacts.

Section StableSortFilter.
Context {A : Type} (key : A -> Q) (P : A -> bool).

Lemma insert_stable_front (x : A) (l : list A) :
  (forall z, In z l -> (key z <= key x)%Q) ->
  insert_stable key x l = x :: l.
Proof.
  destruct l as [ | y l]; intros H; simpl; [reflexivity | ].
  unfold key_lt.
  assert (E : Qle_bool (key y) (key x) = true).
  { apply Qle_bool_iff, H. now left. }
  now rewrite E.
Qed.

Lemma insert_stable_filter_any (x : A) (s : list A) :
  non_increasing key s ->
  filter P (insert_stable key x s)
    = if P x then insert_stable key x (filter P s) else filter P s.
Proof.
  unfold non_increasing.
  induction s as [ | y s IH]; intros Hs.
  - simpl. now destruct (P x).
  - inversion Hs as [ | ? ? Hs' Hall]; subst. simpl.
    destruct (key_lt key x y) eqn:E.
    + simpl. rewrite (IH Hs').
      destruct (P x), (P y); simpl; rewrite ?E; reflexivity.
    + simpl. destruct (P x) eqn:Hx; [ | reflexivity].
      symmetry. apply insert_stable_front.
      intros z Hz.
      assert (Hz' : In z (y :: s)).
      { change (In z (filter P (y :: s))) in Hz.
        now apply filter_In in Hz as [Hz _]. }
      apply key_lt_false in E. destruct Hz' as [<- | Hz']; [exact E | ].
      rewrite Forall_forall in Hall.
      apply Qle_trans with (key y); [now apply Hall | exact E].
Qed.

(** Sorting what a filter keeps is keeping what the filter keeps of the
    sorted list. *)
Lemma sort_stable_filter_any (l : list A) :
  sort_stable key (filter P l) = filter P (sort_stable key l).
Proof.
  induction l as [ | x l IH]; [reflexivity | ].
  simpl. rewrite insert_stable_filter_any by apply sort_stable_sorted.
  destruct (P x); simpl; now rewrite IH.
Qed.
End StableSortFilter.

Lemma metadata_title_description (r : row) :
  dict_get "title" (metadata r) = title r /\
  dict_get "description" (metadata r) = description r.
Proof.
  split; reflexivity.
Qed.

Lemma row_mentions_by_video (lower : string -> string) (name : string)
    (results : list row) :
  consistent_metadata results ->
  forall r, In r results ->
    row_mentions lower name r
      = group_mentions lower name
          (video_id r, group_of results (video_id r)).
Proof.
  intros Hcons r Hr. unfold group_mentions, group_of. simpl.
  destruct (first_match (video_id r) results) as [r0 | ] eqn:Hfirst.
  - apply first_match_Some in Hfirst as [Hr0 Hid].
    rewrite <- (Hcons r r0 Hr Hr0 (eq_sym Hid)).
    destruct (metadata_title_description r) as [-> ->]. reflexivity.
  - apply first_match_None in Hfirst. exfalso. apply Hfirst.
    now apply in_map.
Qed.

Lemma sorted_groups_filter (lower : string -> string) (name : string)
    (results : list row) :
  consistent_metadata results ->
  sorted_groups (filter (row_mentions lower name) results)
    = filter (group_mentions lower name) (sorted_groups results).
Proof.
  intros Hcons. unfold sorted_groups.
  rewrite (initial_groups_filter_by_video (row_mentions lower name)
             (fun v => group_mentions lower name (v, group_of results v)))
    by now apply row_mentions_by_video.
  rewrite <- sort_stable_filter_any. f_equal.
  rewrite filter_map_swap. f_equal.
  apply filter_ext_in. intros [k grp] Hin.
  apply initial_groups_In in Hin as [_ Hsnd]. simpl in Hsnd. subst grp.
  reflexivity.
Qed.

Lemma filter_numeric (p : row -> bool) (results : list row) :
  forallb numeric_similarity results = true ->
  forallb numeric_similarity (filter p results) = true.
Proof.
  intros H. apply forallb_forall. intros r Hr.
  apply filter_In in Hr as [Hr _]. now apply forallb_numeric_In with results.
Qed.

(** When the matches of each video agree on the video-level fields,
    filtering the matches by politician and grouping what is left gives the
    groups of all matches that mention the politician, in the same order and
    with all their segments: the filter drops whole videos, and never a
    segment out of a video that stays. *)
Theorem filtering_matches_is_filtering_groups (lower : string -> string)
    (main_category sub_category : string) (results : list row) :
  politician_chosen main_category sub_category = true ->
  forallb numeric_similarity results = true ->
  forallb lowerable_fields results = true ->
  consistent_metadata results ->
  exists filtered g,
    filter_by_politician lower main_category sub_category results
      = Done filtered /\
    group_results_by_video results = Ok g /\
    group_results_by_video filtered
      = Ok (filter (group_mentions lower (lower sub_category)) g).
Proof.
  intros Hchosen Hnum Hlow Hcons.
  exists (filter (row_mentions lower (lower sub_category)) results),
         (sorted_groups results).
  split; [ | split].
  - unfold filter_by_politician. fold (politician_chosen main_category
                                         sub_category).
    rewrite Hchosen, politician_loop_closed, Hlow. reflexivity.
  - now apply group_results_by_video_numeric.
  - rewrite group_results_by_video_numeric by now apply filter_numeric.
    f_equal. now apply sorted_groups_filter.
Qed.

Lemma filtering_matches_is_filtering_groups_witness :
  exists filtered g,
    filter_by_politician (fun s => s) "Speeches of politicians" "news"
      sample_results = Done filtered /\
    group_results_by_video sample_results = Ok g /\
    group_results_by_video filtered
      = Ok (filter (group_mentions (fun s => s) "news") g).
Proof.
  apply (filtering_matches_is_filtering_groups (fun s => s)
           "Speeches of politicians" "news" sample_results).
  - reflexivity.
  - reflexivity.
  - reflexivity.
  - exact sample_results_consistent.
Defined.

(** ** A search of the dashboard *)

Lemma filter_by_politician_cases (lower : string -> string)
    (main_category sub_category : string) (results : list row) :
  (politician_chosen main_category sub_category = true /\
   forallb lowerable_fields results = false /\
   filter_by_politician lower main_category sub_category results
     = AttributeError) \/
  (exists filtered,
     filter_by_politician lower main_category sub_category results
       = Done filtered /\
     forall r, In r filtered -> In r results).
Proof.
  unfold filter_by_politician. fold (politician_chosen main_category
                                       sub_category).
  destruct (politician_chosen main_category sub_category).
  - rewrite politician_loop_closed.
    destruct (forallb lowerable_fields results).
    + right. eexists. split; [reflexivity | ].
      intros r Hr. simpl in Hr. now apply filter_In in Hr as [Hr _].
    + left. now repeat split.
  - right. exists results. now split.
Qed.

(** On the path of the dashboard, when the re-check and the filter by
    politician have returned, the grouping returns too: it does not raise
    there.  So of the two counts of the message above the cards,
    [len(video_groups)] is at most [len(results)], which is the number of
    segments of all groups together, and at least one when a match is
    left. *)
Theorem grouping_of_filtered_rows (lower : string -> string)
    (main_category sub_category : string) (min_similarity : Q)
    (fetched accepted filtered : list row) :
  search_similar_segments fetched min_similarity = Ok accepted ->
  filter_by_politician lower main_category sub_category accepted
    = Done filtered ->
  exists video_groups,
    group_results_by_video filtered = Ok video_groups /\
    List.length (flatten video_groups) = List.length filtered /\
    (List.length video_groups <= List.length filtered)%nat /\
    (filtered <> [] -> (1 <= List.length video_groups)%nat).
Proof.
  intros Hs Hf.
  pose proof (accepted_rows_are_numeric _ _ _ Hs) as Hnum.
  destruct (filter_by_politician_cases lower main_category sub_category
              accepted) as [[_ [_ Hraise]] | [filtered' [Hf' Hsub]]];
    [congruence | ].
  rewrite Hf in Hf'. injection Hf' as <-.
  assert (Hnum' : forallb numeric_similarity filtered = true).
  { apply forallb_forall. intros x Hx.
    apply forallb_numeric_In with accepted; [exact Hnum | now apply Hsub]. }
  pose proof (group_results_by_video_numeric _ Hnum') as Hg.
  exists (sorted_groups filtered).
  destruct (group_keys_are_the_video_ids_aux _ _ Hg) as [Hlen Hne].
  destruct (group_results_by_video_Ok _ _ Hg) as [_ [_ [Hperm _]]].
  split; [exact Hg | ]. split; [now apply Permutation_length | ].
  split; [exact Hlen | ].
  intros Hleft. specialize (Hne Hleft).
  destruct (sorted_groups filtered); [now contradiction Hne | simpl; lia].
Qed.

Lemma grouping_of_filtered_rows_witness :
  exists video_groups,
    group_results_by_video
      (filter (row_mentions (fun s => s) "news")
         (filter (accepted_by_recheck (3 # 10)) sample_results))
      = Ok video_groups /\
    List.length (flatten video_groups)
      = List.length
          (filter (row_mentions (fun s => s) "news")
             (filter (accepted_by_recheck (3 # 10)) sample_results)) /\
    (List.length video_groups
     <= List.length
          (filter (row_mentions (fun s => s) "news")
             (filter (accepted_by_recheck (3 # 10)) sample_results)))%nat /\
    (filter (row_mentions (fun s => s) "news")
       (filter (accepted_by_recheck (3 # 10)) sample_results) <> [] ->
     (1 <= List.length video_groups)%nat).
Proof.
  exact (grouping_of_filtered_rows (fun s => s)
           "Speeches of politicians" "news" (3 # 10) sample_results
           (filter (accepted_by_recheck (3 # 10)) sample_results)
           (filter (row_mentions (fun s => s) "news")
              (filter (accepted_by_recheck (3 # 10)) sample_results))
           eq_refl eq_refl).
Defined.

(** ** The formatting helpers, once more *)

Lemma format_duration_negative_witness :
  format_duration (Some (-5)) = format_duration (Some ((-5) mod 3600)).
Proof.
  apply (format_duration_negative (-5)). lia.
Defined.

Lemma log2_succ_le (a : Z) : 0 < a -> Z.log2 (a + 1) <= Z.log2 a + 1.
Proof.
  intros Ha. replace (Z.log2 a + 1) with (Z.succ (Z.log2 a)) by lia.
  rewrite <- Z.log2_double by exact Ha. apply Z.log2_le_mono. lia.
Qed.

Lemma quotient_exponent_le (a b : Z) :
  0 < b -> quotient_exponent a b <= Z.log2 a.
Proof.
  intros Hb. unfold quotient_exponent.
  pose proof (Z.log2_nonneg b) as Hlb.
  destruct (_ <? 2 ^ 52); lia.
Qed.

(** The quotient of two positive integers below [2 ^ 500] is a float. *)
Lemma truediv_pos_no_overflow (a b : Z) :
  0 < a -> 0 < b -> a < 2 ^ 500 -> exists x, truediv_pos a b = Ok x.
Proof.
  intros Ha Hb Hbig. unfold truediv_pos.
  pose proof (quotient_exponent_le a b Hb) as He.
  set (e := quotient_exponent a b) in *.
  assert (Hlog : Z.log2 a < 500) by (apply Z.log2_lt_pow2; lia).
  pose proof (Z.log2_nonneg a) as Hla.
  set (m := if 0 <=? e
            then round_half_even a (b * 2 ^ e)
            else round_half_even (a * 2 ^ (- e)) b).
  assert (Hm : Z.log2 m + e < 1024).
  { unfold m. destruct (Z.leb_spec 0 e) as [Hpos | Hneg].
    - assert (Hden : 0 < b * 2 ^ e).
      { assert (0 < 2 ^ e) by (apply Z.pow_pos_nonneg; lia). nia. }
      pose proof (round_half_even_upper a (b * 2 ^ e) ltac:(lia) Hden)
        as Hup.
      apply Z.log2_le_mono in Hup.
      pose proof (log2_succ_le a Ha). lia.
    - assert (Hpow : 0 < 2 ^ (- e)) by (apply Z.pow_pos_nonneg; lia).
      pose proof (round_half_even_upper (a * 2 ^ (- e)) b ltac:(nia) Hb)
        as Hup.
      assert (Hup2 : round_half_even (a * 2 ^ (- e)) b <= a * 2 ^ (1 - e)).
      { replace (1 - e) with (1 + - e) by lia. rewrite Z.pow_add_r by lia.
        change (2 ^ 1) with 2. nia. }
      apply Z.log2_le_mono in Hup2.
      rewrite Z.log2_mul_pow2 in Hup2 by lia. lia. }
  assert (Hov : (1024 <=? Z.log2 m + e) = false) by (apply Z.leb_gt; lia).
  rewrite Hov. now eexists.
Qed.

(** [format_number] raises nothing on a count that fits a 64-bit integer:
    the [OverflowError] of the division is out of reach of a [BIGINT]
    column. *)
Theorem format_number_of_bigint (n : Z) :
  - 2 ^ 63 <= n < 2 ^ 63 -> exists s, format_number (Some n) = Ok s.
Proof.
  intros [_ Hhi]. unfold format_number.
  assert (Hbig : n < 2 ^ 500).
  { apply Z.lt_trans with (2 ^ 63); [exact Hhi | reflexivity]. }
  destruct (Z.leb_spec 1000000 n) as [H1 | H1].
  - destruct n as [ | p | p]; try lia.
    destruct (truediv_pos_no_overflow (Zpos p) 1000000) as [x Hx];
      [lia | lia | exact Hbig | ].
    unfold int_truediv. rewrite Hx. simpl. now eexists.
  - destruct (Z.leb_spec 1000 n) as [H2 | H2]; [ | now eexists].
    destruct n as [ | p | p]; try lia.
    destruct (truediv_pos_no_overflow (Zpos p) 1000) as [x Hx];
      [lia | lia | exact Hbig | ].
    unfold int_truediv. rewrite Hx. simpl. now eexists.
Qed.

Lemma format_number_of_bigint_witness :
  exists s, format_number (Some 9223372036854775807) = Ok s.
Proof.
  apply (format_number_of_bigint 9223372036854775807).
  split; [vm_compute; discriminate | reflexivity].
Defined.

(** ** When the grouping raises *)

Lemma lt_Ok_same_kind (a b : value) (c : bool) :
  Py.lt a b = Ok c -> kind_of a = kind_of b.
Proof.
  destruct a, b; simpl; intros H; try discriminate H; reflexivity.
Qed.

Section SortKinds.
Context {A : Type}.

Lemma sort_decorated_same_kind (d s : list (value * A)) :
  sort_decorated d = Ok s ->
  forall x y, In x d -> In y d -> kind_of (fst x) = kind_of (fst y).
Proof.
  revert s. induction d as [ | x0 d IH]; intros s Hs x y Hx Hy;
    [contradiction | ].
  simpl in Hs. apply bind_Ok_inv in Hs as [s' [Hs' Hins]].
  pose proof (sort_decorated_Permutation _ _ Hs') as Hperm.
  assert (Hhead : forall z, In z d -> kind_of (fst x0) = kind_of (fst z)).
  { intros z Hz. destruct s' as [ | y0 s'].
    - apply Permutation_sym, Permutation_nil in Hperm. subst d.
      contradiction.
    - simpl in Hins.
      destruct (Py.lt (fst x0) (fst y0)) as [c | e] eqn:Hlt;
        [ | discriminate Hins].
      apply lt_Ok_same_kind in Hlt. rewrite Hlt.
      apply (IH _ Hs'); [ | exact Hz].
      apply (Permutation_in _ (Permutation_sym Hperm)). now left. }
  destruct Hx as [<- | Hx], Hy as [<- | Hy].
  - reflexivity.
  - now apply Hhead.
  - symmetry. now apply Hhead.
  - now apply (IH _ Hs').
Qed.

Lemma decorate_In (key : A -> res value) (l : list A)
    (d : list (value * A)) (a : A) :
  decorate key l = Ok d -> In a l -> exists k, key a = Ok k /\ In (k, a) d.
Proof.
  revert d. induction l as [ | x l IH]; intros d Hd Ha; [contradiction | ].
  simpl in Hd. apply bind_Ok_inv in Hd as [k [Hk Hd]].
  apply bind_Ok_inv in Hd as [d' [Hd' Hd]]. injection Hd as <-.
  destruct Ha as [<- | Ha].
  - exists k. split; [exact Hk | now left].
  - destruct (IH _ Hd' Ha) as [k' [Hk' Hin]].
    exists k'. split; [exact Hk' | now right].
Qed.

(** A sort that returns has met keys of one kind only. *)
Lemma sort_reverse_same_kind (key : A -> res value) (l l' : list A) :
  sort_reverse key l = Ok l' ->
  forall a b ka kb, In a l -> In b l -> key a = Ok ka -> key b = Ok kb ->
    kind_of ka = kind_of kb.
Proof.
  unfold sort_reverse. intros H a b ka kb Ha Hb Hka Hkb.
  apply bind_Ok_inv in H as [d [Hd H]].
  apply bind_Ok_inv in H as [s [Hs _]].
  destruct (decorate_In _ _ _ _ Hd Ha) as [ka' [Hka' Hina]].
  destruct (decorate_In _ _ _ _ Hd Hb) as [kb' [Hkb' Hinb]].
  assert (ka' = ka) by congruence. assert (kb' = kb) by congruence.
  subst. exact (sort_decorated_same_kind _ _ Hs _ _ Hina Hinb).
Qed.
End SortKinds.

Lemma sort_segments_loop_same_kind (done todo vg' : dict group) :
  NoDup (dict_keys (done ++ todo)) ->
  sort_segments_loop (dict_keys todo) (done ++ todo) = Ok vg' ->
  forall kv a b, In kv todo ->
    In a (segments (snd kv)) -> In b (segments (snd kv)) ->
    key_kind a = key_kind b.
Proof.
  revert done. induction todo as [ | [k g] todo IH];
    intros done Hnd Hloop kv a b Hkv Ha Hb; [contradiction | ].
  simpl in Hloop.
  assert (Hnotin : ~ In k (dict_keys done)).
  { unfold dict_keys in *. rewrite map_app in Hnd. simpl in Hnd.
    apply NoDup_remove_2 in Hnd. intros Hin. apply Hnd, in_or_app.
    now left. }
  unfold dict_getitem in Hloop.
  rewrite dict_lookup_middle in Hloop by exact Hnotin. simpl in Hloop.
  apply bind_Ok_inv in Hloop as [s [Hs Hloop]].
  destruct Hkv as [<- | Hkv].
  - simpl in Ha, Hb.
    exact (sort_reverse_same_kind similarity_key _ _ Hs a b _ _ Ha Hb
             eq_refl eq_refl).
  - rewrite dict_setitem_middle in Hloop by exact Hnotin.
    change (done ++ (k, {| video_info := video_info g; segments := s |})
                 :: todo)
      with (done ++ [(k, {| video_info := video_info g; segments := s |})]
                 ++ todo) in Hloop.
    rewrite app_assoc in Hloop.
    apply (IH (done ++ [(k, {| video_info := video_info g;
                               segments := s |})]))
      with (kv := kv); try assumption.
    rewrite <- app_assoc. unfold dict_keys in *.
    rewrite !map_app in *. exact Hnd.
Qed.

(** Two matches whose sort keys [similarity or 0] are of different kinds, a
    number and a string say, make the grouping raise [TypeError], wherever
    they stand in the input and whichever videos they belong to: a result
    is returned only when all keys are of one kind. *)
Theorem grouping_raises_on_mixed_kinds (results : list row) (r1 r2 : row) :
  In r1 results -> In r2 results -> key_kind r1 <> key_kind r2 ->
  group_results_by_video results = Raise TypeError.
Proof.
  intros H1 H2 Hkinds.
  destruct (group_results_by_video_cases results)
    as [Hraise | [vg0 [g [Hok _]]]]; [exact Hraise | ].
  exfalso. apply Hkinds. clear Hkinds.
  unfold group_results_by_video in Hok.
  rewrite group_loop_initial in Hok. simpl in Hok.
  apply bind_Ok_inv in Hok as [vg [Hloop Hok]].
  apply bind_Ok_inv in Hok as [sorted [Hsort _]].
  pose proof (first_seen_NoDup (map video_id results)) as Hnd.
  rewrite <- initial_groups_keys in Hnd.
  pose proof (sort_segments_loop_same_kind [] _ _ Hnd Hloop) as Hin_group.
  destruct (sort_segments_loop_cases (dict_keys (initial_groups results))
              (initial_groups results) (fun k H => H))
    as [Hr | [vg' [Hloop' Hrel]]]; [congruence | ].
  rewrite Hloop in Hloop'. injection Hloop' as <-.
  assert (Hbest : forall r, In r results ->
            exists kv s,
              In kv vg /\ best_segment_key kv = Ok
                            (Py.or_ (similarity s) (VNum 0)) /\
              key_kind r = key_kind s).
  { intros r Hr.
    assert (Hinit : In (video_id r, group_of results (video_id r))
                      (initial_groups results)).
    { apply initial_groups_In. simpl. split; [now apply in_map | reflexivity]. }
    destruct (Forall2_same_group_In _ _ _ Hrel Hinit)
      as [kv [Hkv [_ [_ Hperm]]]]. simpl in Hperm.
    assert (Hrin : In r (filter (has_video_id (video_id r)) results)).
    { apply filter_In. split; [exact Hr | apply String.eqb_refl]. }
    destruct (segments (snd kv)) as [ | s l] eqn:Hsegs.
    - apply Permutation_sym, Permutation_nil in Hperm.
      rewrite Hperm in Hrin. contradiction.
    - exists kv, s. split; [exact Hkv | split].
      + unfold best_segment_key. now rewrite Hsegs.
      + apply (Hin_group _ r s Hinit); simpl; [exact Hrin | ].
        apply (Permutation_in _ (Permutation_sym Hperm)). now left. }
  destruct (Hbest r1 H1) as [kv1 [s1 [Hkv1 [Hk1 ->]]]].
  destruct (Hbest r2 H2) as [kv2 [s2 [Hkv2 [Hk2 ->]]]].
  exact (sort_reverse_same_kind best_segment_key _ _ Hsort kv1 kv2 _ _
           Hkv1 Hkv2 Hk1 Hk2).
Qed.

Lemma grouping_raises_on_mixed_kinds_witness :
  group_results_by_video
    [sample_row "v1" "talk" (VStr "en") (VNum 0.9);
     sample_row "v2" "news" (VStr "en") (VStr "n/a")] = Raise TypeError.
Proof.
  apply (grouping_raises_on_mixed_kinds _
           (sample_row "v1" "talk" (VStr "en") (VNum 0.9))
           (sample_row "v2" "news" (VStr "en") (VStr "n/a"))).
  - now left.
  - right. now left.
  - discriminate.
Defined.

(** ** Reading a duration back *)

Lemma string_app_inv_tail (s1 s2 u v : string) :
  String.length u = String.length v ->
  (s1 ++ u)%string = (s2 ++ v)%string -> s1 = s2 /\ u = v.
Proof.
  intros Hlen. revert s2.
  induction s1 as [ | c s1 IH]; intros [ | c' s2] H; simpl in H.
  - now split.
  - exfalso. apply (f_equal String.length) in H. simpl in H.
    rewrite string_length_append in H. lia.
  - exfalso. apply (f_equal String.length) in H. simpl in H.
    rewrite string_length_append in H. lia.
  - injection H as -> H. destruct (IH _ H) as [-> ->]. now split.
Qed.

Lemma string_append_assoc (s1 s2 s3 : string) :
  ((s1 ++ s2) ++ s3)%string = (s1 ++ (s2 ++ s3))%string.
Proof.
  induction s1 as [ | c s1 IH]; simpl; [reflexivity | now rewrite IH].
Qed.

Lemma str_injective (a b : Z) : str a = str b -> a = b.
Proof.
  intros H. pose proof (str_reads_back a) as Ha.
  rewrite H, str_reads_back in Ha. now injection Ha.
Qed.

Lemma str_nonempty (n : Z) : (1 <= String.length (str n))%nat.
Proof.
  destruct (str n) eqn:Hs; [ | simpl; lia].
  pose proof (str_reads_back n) as Hr. rewrite Hs in Hr. discriminate Hr.
Qed.

Lemma str_short (n : Z) :
  0 <= n < 60 -> (String.length (str n) <= 2)%nat.
Proof.
  intros Hn.
  assert (Hall : forallb
            (fun k => (String.length (str (Z.of_nat k)) <=? 2)%nat)
            (seq 0 60) = true) by (vm_compute; reflexivity).
  rewrite forallb_forall in Hall. specialize (Hall (Z.to_nat n)).
  rewrite Z2Nat.id in Hall by lia. apply Nat.leb_le, Hall, in_seq. lia.
Qed.

Lemma two_digits_injective (a b : Z) :
  0 <= a < 100 -> 0 <= b < 100 -> two_digits a = two_digits b -> a = b.
Proof.
  intros Ha Hb H. unfold two_digits, digit in H. injection H as H1 H2.
  apply (f_equal nat_of_ascii) in H1, H2.
  rewrite !nat_ascii_embedding in H1, H2
    by (Z.div_mod_to_equations; lia).
  Z.div_mod_to_equations. lia.
Qed.

Lemma two_digits_length (n : Z) : String.length (two_digits n) = 2%nat.
Proof.
  reflexivity.
Qed.

Lemma format_duration_nonnegative (s : Z) :
  0 <= s -> format_duration (Some s) = format_duration_spec (Some s).
Proof.
  intros Hs. unfold format_duration, format_duration_spec.
  assert (E0 : (s <? 0) = false) by (apply Z.ltb_ge; lia).
  rewrite E0, minutes_of_hour.
  rewrite (fmt_02d_two_digits (s mod 60)) by (Z.div_mod_to_equations; lia).
  destruct (Z.ltb_spec s 3600) as [Hlt | Hge].
  - assert (E1 : (0 <? s / 3600) = false).
    { apply Z.ltb_ge. Z.div_mod_to_equations. lia. }
    rewrite E1. f_equal. f_equal. Z.div_mod_to_equations. lia.
  - assert (E1 : (0 <? s / 3600) = true).
    { apply Z.ltb_lt. Z.div_mod_to_equations. lia. }
    rewrite E1.
    now rewrite (fmt_02d_two_digits ((s / 60) mod 60))
      by (Z.div_mod_to_equations; lia).
Qed.

(** Two numbers of seconds that are not negative are printed alike only if
    they are equal: the seconds can be read back from what is printed. *)
Theorem format_duration_injective (a b : Z) :
  0 <= a -> 0 <= b ->
  format_duration (Some a) = format_duration (Some b) -> a = b.
Proof.
  intros Ha Hb. rewrite !format_duration_nonnegative by assumption.
  unfold format_duration_spec.
  assert (Ea : (a <? 0) = false) by (apply Z.ltb_ge; lia).
  assert (Eb : (b <? 0) = false) by (apply Z.ltb_ge; lia).
  rewrite Ea, Eb.
  assert (Hmix : forall x y, 0 <= x < 3600 -> 3600 <= y ->
            (str (x / 60) ++ ":" ++ two_digits (x mod 60))%string
            <> (str (y / 3600) ++ ":" ++ two_digits ((y / 60) mod 60)
                  ++ ":" ++ two_digits (y mod 60))%string).
  { intros x y Hx Hy H.
    replace (str (y / 3600) ++ ":" ++ two_digits ((y / 60) mod 60)
               ++ ":" ++ two_digits (y mod 60))%string
      with ((str (y / 3600) ++ ":" ++ two_digits ((y / 60) mod 60))
              ++ ":" ++ two_digits (y mod 60))%string in H
      by (rewrite string_append_assoc; reflexivity).
    apply string_app_inv_tail in H as [H _]; [ | reflexivity].
    apply (f_equal String.length) in H.
    rewrite !string_length_append in H. simpl in H.
    pose proof (str_short (x / 60) ltac:(Z.div_mod_to_equations; lia)).
    pose proof (str_nonempty (y / 3600)). lia. }
  destruct (Z.ltb_spec a 3600) as [Ha' | Ha'],
           (Z.ltb_spec b 3600) as [Hb' | Hb']; intros H.
  - apply string_app_inv_tail in H as [H1 H2]; [ | reflexivity].
    apply str_injective in H1. injection H2 as H2 H3.
    assert (Hs : two_digits (a mod 60) = two_digits (b mod 60))
      by (unfold two_digits; congruence).
    apply two_digits_injective in Hs;
      [ | Z.div_mod_to_equations; lia ..].
    Z.div_mod_to_equations. lia.
  - exfalso. now apply (Hmix a b).
  - exfalso. symmetry in H. now apply (Hmix b a).
  - replace (str (a / 3600) ++ ":" ++ two_digits ((a / 60) mod 60)
               ++ ":" ++ two_digits (a mod 60))%string
      with ((str (a / 3600) ++ ":" ++ two_digits ((a / 60) mod 60))
              ++ ":" ++ two_digits (a mod 60))%string in H
      by (rewrite string_append_assoc; reflexivity).
    replace (str (b / 3600) ++ ":" ++ two_digits ((b / 60) mod 60)
               ++ ":" ++ two_digits (b mod 60))%string
      with ((str (b / 3600) ++ ":" ++ two_digits ((b / 60) mod 60))
              ++ ":" ++ two_digits (b mod 60))%string in H
      by (rewrite string_append_assoc; reflexivity).
    apply string_app_inv_tail in H as [H H3]; [ | reflexivity].
    apply string_app_inv_tail in H as [H1 H2]; [ | reflexivity].
    apply str_injective in H1.
    assert (Hs : two_digits (a mod 60) = two_digits (b mod 60))
      by (injection H3; unfold two_digits; congruence).
    assert (Hm : two_digits ((a / 60) mod 60) = two_digits ((b / 60) mod 60))
      by (injection H2; unfold two_digits; congruence).
    apply two_digits_injective in Hs;
      [ | Z.div_mod_to_equations; lia ..].
    apply two_digits_injective in Hm;
      [ | Z.div_mod_to_equations; lia ..].
    Z.div_mod_to_equations. lia.
Qed.

Lemma format_duration_injective_witness : 3661 = 3661.
Proof.
  apply (format_duration_injective 3661 3661); [lia | lia | reflexivity].
Defined.
